(** * A feed-forward neural network over an array backend

    Shallow embedding of [examples/es6/machine-learning/ann.js]: the class
    [ANN] with its constructor, [deriv], [addBias], [_calculateError],
    [forwardPropagate], [backPropagate], [predict] and [train].

    Conventions of the embedding.
    - Array elements (f32) and JavaScript numbers that hold array-derived
      values (the learning rate, the range, the error) are one abstract scalar
      type [R] with the operations of class [Num]; no algebraic law is assumed
      of them, so every equation below is an equation between the expressions
      the code evaluates. Only the bounds of the initial weights need an
      order, class [NumOrder]. The elementary functions (sigmoid, square
      root) are class [Elementary].
    - JavaScript numbers used for loop control and row positions in [train]
      are IEEE 754 doubles ([jsnum]): every quotient, difference and product
      is rounded to the nearest double ([round64]), and a division by zero
      gives [Infinity] or [NaN]. [batchSize] and [maxEpochs] are whole
      numbers.
    - A JavaScript exception is the result [Err]; the receiver object keeps
      the mutations made before the exception.
    - [af.scope] only reclaims temporaries: it runs its callback. *)

From stdpp Require Import base list.
From Stdlib Require Import QArith Qround Qabs ZArith Lia Lqa.

Close Scope Q_scope.
Local Open Scope nat_scope.

(** ** Results of fallible calls *)

Inductive error : Type :=
  | TypeError    (* a method call or use of [undefined] *)
  | ShapeError   (* the backend rejects operands of incompatible dimensions *)
  | IndexError   (* the backend rejects a range *)
  | OutOfFuel.   (* not an exception: a loop that has not ended within the
                    number of iterations followed here *)

Inductive result (A : Type) : Type :=
  | Ok (a : A)
  | Err (e : error).
Arguments Ok {A} a.
Arguments Err {A} e.

Definition result_bind {A B} (r : result A) (k : A → result B) : result B :=
  match r with
  | Ok a => k a
  | Err e => Err e
  end.

Definition of_option {A} (o : option A) (e : error) : result A :=
  match o with
  | Some a => Ok a
  | None => Err e
  end.

(** ** Scalars *)

(** The arithmetic the code asks of numbers and array elements. [rconst q]
    is the scalar denoted by the numeric literal or integer [q]. *)
Class Num (R : Type) : Type := {
  rconst : Q → R;
  radd : R → R → R;
  rsub : R → R → R;
  rmul : R → R → R;
  rdiv : R → R → R;
  rneg : R → R;
  rltb : R → R → bool;    (* JavaScript [<] on numbers *)
  rfalsy : R → bool       (* JavaScript falsiness of a number: 0 and NaN *)
}.

Class Elementary (R : Type) : Type := {
  rsigmoid : R → R;
  rsqrt : R → R
}.

Definition rofnat {R} `{Num R} (n : nat) : R := rconst (inject_Z (Z.of_nat n)).

(** An order on the scalars, for the bounds of the initial weights. The
    laws are those of exact arithmetic that correctly rounded binary
    floating point keeps, with [rle x y] read as: [x] and [y] are finite
    and [x <= y]. Rounding is monotone and leaves [0], [r] and [-h] as they
    are, so products of [r >= 0] with numbers of [[0, 1]] stay in order
    inside [[0, r]], and differences of numbers of [[0, r]] with the half
    [h] of [r] stay in order; away from underflow halving is exact, so [r]
    less its half is that half. *)
Class NumOrder (R : Type) `{Num R} : Type := {
  rle : R → R → Prop;
  rle_refl_l : ∀ x y, rle x y → rle x x;
  rle_refl_r : ∀ x y, rle x y → rle y y;
  rle_trans : ∀ x y z, rle x y → rle y z → rle x z;
  rmul_mono : ∀ x y r,
    rle (rconst 0%Q) r → rle (rconst 0%Q) x → rle x y → rle y (rconst 1%Q) →
    rle (rmul x r) (rmul y r);
  rmul_zero : ∀ r, rle (rconst 0%Q) r → rle (rconst 0%Q) (rmul (rconst 0%Q) r);
  rmul_one : ∀ r, rle (rconst 0%Q) r → rle (rmul (rconst 1%Q) r) r;
  rsub_mono : ∀ x y r,
    rle (rconst 0%Q) x → rle x y → rle y r →
    rle (rsub x (rdiv r (rconst 2%Q))) (rsub y (rdiv r (rconst 2%Q)));
  rsub_zero : ∀ r,
    rle (rconst 0%Q) r →
    rle (rneg (rdiv r (rconst 2%Q))) (rsub (rconst 0%Q) (rdiv r (rconst 2%Q)));
  rsub_half : ∀ r,
    rle (rconst 0%Q) r →
    rle (rsub r (rdiv r (rconst 2%Q))) (rdiv r (rconst 2%Q))
}.

(** ** JavaScript numbers

    A JavaScript number is an IEEE 754 binary64 value. A finite one is the
    rational it denotes; an arithmetic operation returns the double nearest
    to the exact result, ties to the even significand. The exponent range
    is not limited here: the quotients and products of [train] are far from
    overflow and underflow. *)

(** Nearest whole number to [num / den], ties to even, for [den > 0]. *)
Definition round_half_even (num den : Z) : Z :=
  let q := (num / den)%Z in
  match (2 * (num mod den) ?= den)%Z with
  | Lt => q
  | Gt => (q + 1)%Z
  | Eq => if Z.even q then q else (q + 1)%Z
  end.

(** Numerator and denominator of [(a / d) / 2 ^ e]. *)
Definition scaled_num (a : Z) (e : Z) : Z :=
  if (0 <=? e)%Z then a else (a * 2 ^ (- e))%Z.

Definition scaled_den (d : Z) (e : Z) : Z :=
  if (0 <=? e)%Z then (d * 2 ^ e)%Z else d.

(** The exponent [e] with [2 ^ 52 <= (a / d) / 2 ^ e < 2 ^ 53], for
    positive [a] and [d]: the weight of the last of 53 significant bits. *)
Definition exponent64 (a d : Z) : Z :=
  let e0 := (Z.log2 a - Z.log2 d - 53)%Z in
  if (scaled_num a e0 <? 2 ^ 53 * scaled_den d e0)%Z then e0 else (e0 + 1)%Z.

Definition round64_pos (a d : Z) : Q :=
  let e := exponent64 a d in
  let m := round_half_even (scaled_num a e) (scaled_den d e) in
  if (0 <=? e)%Z then inject_Z (m * 2 ^ e) else (m # Z.to_pos (2 ^ (- e)))%Q.

(** The double nearest to the rational [x]. *)
Definition round64 (x : Q) : Q :=
  let x' := Qred x in
  match Qnum x' with
  | 0%Z => 0%Q
  | Z.pos a => round64_pos (Z.pos a) (Z.pos (Qden x'))
  | Z.neg a => (- round64_pos (Z.pos a) (Z.pos (Qden x')))%Q
  end.

(** The numbers [train] computes with: finite doubles, and what a division
    by zero of a non-negative number gives. *)
Inductive jsnum : Type :=
  | Fin (q : Q)
  | Infinity
  | NaN.

(** [x / y] for finite [x >= 0] and [y >= 0]. *)
Definition js_div (x y : Q) : jsnum :=
  if Qeq_bool y 0 then (if Qeq_bool x 0 then NaN else Infinity)
  else Fin (round64 (x / y)).

(** [x + y] and [x - y] for finite [y]. *)
Definition js_add (x : jsnum) (y : Q) : jsnum :=
  match x with
  | Fin q => Fin (round64 (q + y))
  | Infinity => Infinity
  | NaN => NaN
  end.

Definition js_sub (x : jsnum) (y : Q) : jsnum :=
  match x with
  | Fin q => Fin (round64 (q - y))
  | Infinity => Infinity
  | NaN => NaN
  end.

(** [x * y] for finite [y >= 0]. *)
Definition js_mul (x : jsnum) (y : Q) : jsnum :=
  match x with
  | Fin q => Fin (round64 (q * y))
  | Infinity => if Qeq_bool y 0 then NaN else Infinity
  | NaN => NaN
  end.

(** [x < y] for finite [x]. *)
Definition js_ltb (x : Q) (y : jsnum) : bool :=
  match y with
  | Fin q => negb (Qle_bool q x)
  | Infinity => true
  | NaN => false
  end.

(** A whole number that doubles represent exactly, with its neighbours. *)
Definition safe (n : nat) : Prop := (Z.of_nat n < 2 ^ 53)%Z.

(** ** Arrays *)

(** A two-dimensional backend array: [dim0] rows, [dim1] columns, and the
    elements as a list of rows. Operations decide shapes from [dim0] and
    [dim1], as the backend does from the array's dimension record. *)
Record AFArray (R : Type) : Type := mkArr {
  dim0 : nat;
  dim1 : nat;
  rows : list (list R)
}.
Arguments mkArr {R} dim0 dim1 rows.
Arguments dim0 {R} a.
Arguments dim1 {R} a.
Arguments rows {R} a.

(** The elements agree with the dimensions. *)
Definition wf_array {R} (a : AFArray R) : Prop :=
  length (rows a) = dim0 a ∧ Forall (λ r, length r = dim1 a) (rows a).

(** Element at row [i], column [j]. *)
Definition get {R} (a : AFArray R) (i j : nat) : option R :=
  rows a !! i ≫= λ r, r !! j.

(** [new Seq(begin, end)]: an inclusive range of positions. *)
Record Seq : Type := newSeq { seq_begin : jsnum; seq_end : jsnum }.

(** A range between two finite numbers. *)
Definition mkSeq (b e : Q) : Seq := newSeq (Fin b) (Fin e).

(** What the backend does with a range that is not a range of whole
    positions inside the indexed dimension. The source does not determine
    it, so it is left open. *)
Class SeqPolicy (R : Type) : Type := {
  seq_invalid : Seq → AFArray R → result (AFArray R)
}.

Definition Qint (q : Q) : option Z :=
  if Qeq_bool (inject_Z (Qfloor q)) q then Some (Qfloor q) else None.

(** First position and number of positions of a range inside a dimension
    of extent [dim]. *)
Definition seq_range (s : Seq) (dim : nat) : option (nat * nat) :=
  match seq_begin s, seq_end s with
  | Fin sb, Fin se =>
      match Qint sb, Qint se with
      | Some b, Some e =>
          if ((0 <=? b) && (b <=? e) && (e <? Z.of_nat dim))%Z
          then Some (Z.to_nat b, Z.to_nat (e - b + 1))
          else None
      | _, _ => None
      end
  | _, _ => None
  end.

Section Backend.
Context {R : Type} `{Num R} `{Elementary R} `{SeqPolicy R}.

Local Abbreviation arr := (AFArray R).

(** Modelled from the spec: [new af.AFArray()], an empty tensor handle. *)
Definition emptyArray : arr := mkArr 0 0 [].

(** Modelled from the spec: element-wise arithmetic producing a new
    tensor; operands of different dimensions are a shape mismatch. *)
Definition ewise (f : R → R → R) (a b : arr) : result arr :=
  if (dim0 a =? dim0 b) && (dim1 a =? dim1 b)
  then Ok (mkArr (dim0 a) (dim1 a) (zip_with (zip_with f) (rows a) (rows b)))
  else Err ShapeError.

Definition amap (f : R → R) (a : arr) : arr :=
  mkArr (dim0 a) (dim1 a) (map (map f) (rows a)).

Definition add (a b : arr) : result arr := ewise radd a b.
Definition sub (a b : arr) : result arr := ewise rsub a b.
Definition mul (a b : arr) : result arr := ewise rmul a b.

(** Scalar-broadcast variants. [rhsSub c a] is [c - a]. *)
Definition mulS (a : arr) (c : R) : arr := amap (λ x, rmul x c) a.
Definition subS (a : arr) (c : R) : arr := amap (λ x, rsub x c) a.
Definition divS (a : arr) (c : R) : arr := amap (λ x, rdiv x c) a.
Definition rhsSub (a : arr) (c : R) : arr := amap (λ x, rsub c x) a.
Definition neg (a : arr) : arr := amap rneg a.

(** Modelled from the spec: [sigmoid(A)] element-wise. *)
Definition sigmoid (a : arr) : arr := amap rsigmoid a.

(** Column [j] of a list of rows. *)
Definition column (j : nat) (rs : list (list R)) : list R :=
  map (λ r, default (rconst 0%Q) (r !! j)) rs.

(** Modelled from the spec: [transpose(A)]. *)
Definition transpose (a : arr) : arr :=
  mkArr (dim1 a) (dim0 a) (map (λ j, column j (rows a)) (seq 0 (dim1 a))).

Definition dot (r c : list R) : R :=
  foldr radd (rconst 0%Q) (zip_with rmul r c).

(** Modelled from the spec: [matmul(A, B)]; incompatible inner
    dimensions are a shape mismatch. *)
Definition matMul (a b : arr) : result arr :=
  if dim1 a =? dim0 b
  then Ok (mkArr (dim0 a) (dim1 b)
             (map (λ r, map (dot r) (rows (transpose b))) (rows a)))
  else Err ShapeError.

(** The backend's [matMulTT]: the product of the transposed left operand
    with the transposed right operand. Only this reading gives the
    propagated error in [backPropagate] one row per sample. *)
Definition matMulTT (a b : arr) : result arr :=
  matMul (transpose a) (transpose b).

(** Modelled from the spec: [constant(value, rows, dtype)], a single
    column filled with [value]. *)
Definition constant (v : R) (n : nat) : arr := mkArr n 1 (replicate n [v]).

(** Modelled from the spec: [concat(axis, A, B)] for axis 1: the columns
    of [a] followed by the columns of [b]; different row counts are a
    shape mismatch. *)
Definition join1 (a b : arr) : result arr :=
  if dim0 a =? dim0 b
  then Ok (mkArr (dim0 a) (dim1 a + dim1 b) (zip_with app (rows a) (rows b)))
  else Err ShapeError.

(** Modelled from the spec: [sum(A)] over all elements. *)
Definition sumAll (a : arr) : R := foldr radd (rconst 0%Q) (concat (rows a)).

(** Modelled from the spec: [elements()], the total element count. *)
Definition elements (a : arr) : nat := dim0 a * dim1 a.

(** Modelled from the spec: [copy()], an independent copy. *)
Definition copy (a : arr) : arr := a.

(** Modelled from the spec: [A[rowStart..rowEnd, allColumns]]. *)
Definition at_rows (s : Seq) (a : arr) : result arr :=
  match seq_range s (dim0 a) with
  | Some (b, n) => Ok (mkArr n (dim1 a) (take n (drop b (rows a))))
  | None => seq_invalid s a
  end.

(** Modelled from the spec: [A[allRows, colStart..colEnd]]. *)
Definition at_cols (s : Seq) (a : arr) : result arr :=
  match seq_range s (dim1 a) with
  | Some (b, n) =>
      Ok (mkArr (dim0 a) n (map (λ r, take n (drop b r)) (rows a)))
  | None => seq_invalid s a
  end.

(** Modelled from the spec: [uniformRandom(rows, cols, dtype)]. The
    generator is the stream [draw] of its successive draws and the number
    [pos] of draws already consumed; the array is filled column by
    column. *)
Definition randu (draw : nat → R) (pos d0 d1 : nat) : arr * nat :=
  (mkArr d0 d1
     (map (λ i, map (λ j, draw (pos + j * d0 + i)) (seq 0 d1)) (seq 0 d0)),
   pos + d0 * d1).
End Backend.

(** ** The network object and its methods *)

(** [this.numLayers], [this.signal], [this.weights]. *)
Record ANN (R : Type) : Type := mkANN {
  numLayers : nat;
  signal : list (AFArray R);
  weights : list (AFArray R)
}.
Arguments mkANN {R} numLayers signal weights.
Arguments numLayers {R} a.
Arguments signal {R} a.
Arguments weights {R} a.

(** [train]'s options. [batchSize] and [maxEpochs] are whole numbers. *)
Record Options (R : Type) : Type := mkOptions {
  batchSize : nat;
  maxEpochs : nat;
  alpha : R;
  maxError : R
}.
Arguments mkOptions {R} batchSize maxEpochs alpha maxError.
Arguments batchSize {R} o.
Arguments maxEpochs {R} o.
Arguments alpha {R} o.
Arguments maxError {R} o.

(** A method body: it reads and mutates the receiver and returns a value or
    throws; the receiver's state is kept either way. *)
Definition M (R A : Type) : Type := ANN R → result A * ANN R.

Definition ret {R A} (a : A) : M R A := λ s, (Ok a, s).

Definition bind {R A B} (m : M R A) (k : A → M R B) : M R B :=
  λ s, match m s with
       | (Ok a, s') => k a s'
       | (Err e, s') => (Err e, s')
       end.

Definition lift {R A} (r : result A) : M R A := λ s, (r, s).

Notation "x <- c1 ;; c2" := (bind c1 (λ x, c2))
  (at level 100, c1 at next level, right associativity).
Notation "c1 ;; c2" := (bind c1 (λ _, c2))
  (at level 100, right associativity).

(** [for (const i of idx) body(i)]. *)
Fixpoint forEach {R} (idx : list nat) (body : nat → M R unit) : M R unit :=
  match idx with
  | [] => ret tt
  | i :: idx' => body i ;; forEach idx' body
  end.

Section Network.
Context {R : Type} `{Num R} `{Elementary R} `{SeqPolicy R}.

Local Abbreviation arr := (AFArray R).
Local Abbreviation ann := (ANN R).

(** [af.scope(f)] runs [f] and reclaims the temporaries it allocated. *)
Definition scope {A} (f : M R A) : M R A := f.

(** [this.signal[i]] as the receiver of a method call or the operand of a
    backend call: [undefined] throws. *)
Definition getSignal (i : nat) : M R arr :=
  λ s, (of_option (signal s !! i) TypeError, s).

Definition getWeight (i : nat) : M R arr :=
  λ s, (of_option (weights s !! i) TypeError, s).

(** [this.signal[this.numLayers - 1]]: position [-1] of an array is
    [undefined]. *)
Definition getLastSignal : M R arr :=
  λ s, (match numLayers s with
        | O => Err TypeError
        | S k => of_option (signal s !! k) TypeError
        end, s).

(** [this.signal[i].set(v)]. *)
Definition setSignal (i : nat) (v : arr) : M R unit :=
  λ s, match signal s !! i with
       | Some _ => (Ok tt, mkANN (numLayers s) (<[i:=v]> (signal s)) (weights s))
       | None => (Err TypeError, s)
       end.

(** [this.weights[i].addAssign(g)]: the sum replaces the array held by
    [this.weights[i]]. *)
Definition addAssignWeight (i : nat) (g : arr) : M R unit :=
  λ s, match weights s !! i with
       | Some w =>
           match add w g with
           | Ok w' => (Ok tt, mkANN (numLayers s) (signal s) (<[i:=w']> (weights s)))
           | Err e => (Err e, s)
           end
       | None => (Err TypeError, s)
       end.

(** [range = range || 0.05]. *)
Definition rangeOrDefault (range : option R) : R :=
  match range with
  | Some r => if rfalsy r then rconst (5 # 100)%Q else r
  | None => rconst (5 # 100)%Q
  end.

(** The constructor's loop over [i = 0 .. numLayers - 1], with the random
    generator's position threaded through. *)
Fixpoint constructorLoop (draw : nat → R) (layers : list nat) (range : R)
    (idx : list nat) (self : ann) (pos : nat) : result (ann * nat) :=
  match idx with
  | [] => Ok (self, pos)
  | i :: idx' =>
      let self1 :=
        mkANN (numLayers self) (signal self ++ [emptyArray]) (weights self) in
      if (Z.of_nat i <? Z.of_nat (numLayers self) - 1)%Z
      then
        match layers !! i, layers !! (i + 1) with
        | Some a, Some b =>
            let '(u, pos') := randu draw pos (a + 1) b in
            let w := subS (mulS u range) (rdiv range (rconst 2%Q)) in
            constructorLoop draw layers range idx'
              (mkANN (numLayers self1) (signal self1) (weights self1 ++ [w]))
              pos'
        | _, _ => Err TypeError
        end
      else constructorLoop draw layers range idx' self1 pos
  end.

(** [new ANN(af, layers, range)], with the generator positioned at [pos];
    it returns the object and the generator's new position. *)
Definition constructor (draw : nat → R) (pos : nat) (layers : list nat)
    (range : option R) : result (ann * nat) :=
  let range := rangeOrDefault range in
  let self := mkANN (length layers) [] [] in
  constructorLoop draw layers range (seq 0 (numLayers self)) self pos.

Definition deriv (out : arr) : M R arr :=
  lift (mul (rhsSub out (rconst 1%Q)) out).

Definition addBias (input : arr) : M R arr :=
  lift (join1 (constant (rconst 1%Q) (dim0 input)) input).

Definition _calculateError (out pred : arr) : M R R :=
  dif <- lift (sub out pred) ;;
  sq <- lift (mul dif dif) ;;
  ret (rdiv (rsqrt (sumAll sq)) (rofnat (elements sq))).

(** One iteration of [forwardPropagate]'s loop. *)
Definition forwardStep (i : nat) : M R unit :=
  scope (
    s_i <- getSignal i ;;
    inVec <- addBias s_i ;;
    w <- getWeight i ;;
    outVec <- lift (matMul inVec w) ;;
    setSignal (i + 1) (sigmoid outVec)).

Definition forwardPropagate (input : arr) : M R unit :=
  setSignal 0 input ;;
  (λ s, forEach (seq 0 (numLayers s - 1)) forwardStep s).

(** One iteration of [backPropagate]'s loop, for layer [i], from the local
    variables [outVec] and [err] to their new values. *)
Definition backwardStep (alpha : R) (m : nat) (i : nat)
    (outVec err : arr) : M R (arr * arr) :=
  scope (
    s_i <- getSignal i ;;
    inVec <- addBias s_i ;;
    d <- deriv outVec ;;
    de <- lift (mul d err) ;;
    let delta := transpose de in
    g <- lift (matMul delta inVec) ;;
    let grad := divS (neg (mulS g alpha)) (rofnat m) in
    addAssignWeight i (transpose grad) ;;
    outVec' <- getSignal i ;;
    w <- getWeight i ;;
    e1 <- lift (matMulTT delta w) ;;
    e2 <- lift (at_cols (mkSeq 1 (inject_Z (Z.of_nat (dim1 outVec')))) e1) ;;
    ret (outVec', e2)).

(** [for (let i = k - 1; i >= 0; i--)]. *)
Fixpoint backwardLoop (alpha : R) (m : nat) (k : nat)
    (outVec err : arr) : M R unit :=
  match k with
  | O => ret tt
  | S i =>
      oe <- backwardStep alpha m i outVec err ;;
      backwardLoop alpha m i (fst oe) (snd oe)
  end.

Definition backPropagate (target : arr) (alpha : R) : M R unit :=
  scope (
    outVec <- getLastSignal ;;
    err <- lift (sub outVec target) ;;
    let m := dim0 target in
    (λ s, backwardLoop alpha m (numLayers s - 1) outVec err s)).

Definition predict (input : arr) : M R arr :=
  forwardPropagate input ;;
  outVec <- getLastSignal ;;
  ret (copy outVec).

(** *** The training loop *)

Definition Qnat (n : nat) : Q := inject_Z (Z.of_nat n).

Definition Qltb (x y : Q) : bool := negb (Qle_bool y x).

(** [numBatches = numSamples / options.batchSize]. *)
Definition numBatchesOf (numSamples batchSize : nat) : jsnum :=
  js_div (Qnat numSamples) (Qnat batchSize).

(** The values taken by [j] in [for (let j = 0; j < bound; j++)], from
    [j] on, and whether the loop test has failed within [fuel]
    iterations. *)
Fixpoint countUp (fuel : nat) (j : nat) (bound : jsnum) : list nat * bool :=
  match fuel with
  | O => ([], false)
  | S fuel' =>
      if js_ltb (Qnat j) bound
      then let '(l, ends) := countUp fuel' (S j) bound in (j :: l, ends)
      else ([], true)
  end.

(** The loop [for (let j = 0; j < numBatches - 1; j++)] of one epoch,
    followed for [numSamples + 1] iterations. *)
Definition trainCount (numSamples batchSize : nat) : list nat * bool :=
  countUp (S numSamples) 0 (js_sub (numBatchesOf numSamples batchSize) 1).

(** The batch numbers [j] of one epoch. *)
Definition trainIndices (numSamples batchSize : nat) : list nat :=
  fst (trainCount numSamples batchSize).

(** The loop over the batches ends within those iterations. It does for
    a positive batch size and fewer than [2 ^ 53] samples; with
    [batchSize = 0] and a non-empty input [numBatches] is [Infinity] and
    the loop test never fails. *)
Definition trainLoopEnds (numSamples batchSize : nat) : bool :=
  snd (trainCount numSamples batchSize).

(** [new Seq(startPos, endPos)] of training batch [j]. *)
Definition batchSeq (batchSize j : nat) : Seq :=
  let startPos := js_mul (Fin (Qnat j)) (Qnat batchSize) in
  let endPos := js_sub (js_add startPos (Qnat batchSize)) 1 in
  newSeq startPos endPos.

(** [new Seq(startPos, endPos)] of the validation step. *)
Definition validationSeq (numSamples batchSize : nat) : Seq :=
  let numBatches := numBatchesOf numSamples batchSize in
  let startPos := js_mul (js_sub numBatches 1) (Qnat batchSize) in
  let endPos := js_sub (Fin (Qnat numSamples)) 1 in
  newSeq startPos endPos.

Definition trainBatch (input target : arr) (options : Options R) (j : nat)
    : M R unit :=
  scope (
    x <- lift (at_rows (batchSeq (batchSize options) j) input) ;;
    y <- lift (at_rows (batchSeq (batchSize options) j) target) ;;
    forwardPropagate x ;;
    backPropagate y (alpha options)).

Definition validate (input target : arr) (options : Options R) : M R R :=
  scope (
    let vs := validationSeq (dim0 input) (batchSize options) in
    x <- lift (at_rows vs input) ;;
    outVec <- predict x ;;
    y <- lift (at_rows vs target) ;;
    _calculateError outVec y).

(** The body of the epoch loop up to the assignment of [err]. *)
Definition epoch (input target : arr) (options : Options R) : M R R :=
  forEach (trainIndices (dim0 input) (batchSize options))
    (trainBatch input target options) ;;
  if trainLoopEnds (dim0 input) (batchSize options)
  then validate input target options
  else lift (Err OutOfFuel).

(** The epoch loop with [remaining] epochs to go and the current value of
    [err]; it stops early on convergence. The progress report (every tenth
    epoch) and the timing only write to the console and are left out. *)
Fixpoint trainLoop (input target : arr) (options : Options R)
    (remaining : nat) (err : R) : M R R :=
  match remaining with
  | O => ret err
  | S remaining' =>
      e <- epoch input target options ;;
      if rltb e (maxError options) then ret e
      else trainLoop input target options remaining' e
  end.

Definition train (input target : arr) (options : Options R) : M R R :=
  trainLoop input target options (maxEpochs options) (rconst 0%Q).

(** [k] epochs one after the other, none of them converging. *)
Fixpoint runEpochs (input target : arr) (options : Options R) (k : nat)
    : M R unit :=
  match k with
  | O => ret tt
  | S k' => epoch input target options ;; runEpochs input target options k'
  end.
End Network.

(** ** Specification vocabulary *)

Section Specification.
Context {R : Type} `{Num R} `{Elementary R} `{SeqPolicy R}.

Local Abbreviation arr := (AFArray R).
Local Abbreviation ann := (ANN R).

(** The network has the layer sizes [layers]: [numLayers] signals, one
    weight matrix of [layers[i] + 1] rows and [layers[i+1]] columns between
    consecutive layers. *)
Definition net_shape (layers : list nat) (s : ann) : Prop :=
  numLayers s = length layers ∧
  length (signal s) = length layers ∧
  length (weights s) = length layers - 1 ∧
  ∀ i a b w, layers !! i = Some a → layers !! S i = Some b →
    weights s !! i = Some w → dim0 w = a + 1 ∧ dim1 w = b.

(** [Signal[i]] holds a batch of [m] rows of layer [i]. *)
Definition signal_shape (layers : list nat) (m : nat) (s : ann) (i : nat)
    : Prop :=
  ∃ n a, layers !! i = Some n ∧ signal s !! i = Some a ∧
         dim0 a = m ∧ dim1 a = n.

(** The spec's bias augmentation: a leading column of ones. *)
Definition biased (t : arr) : result arr :=
  join1 (constant (rconst 1%Q) (dim0 t)) t.

(** The spec's network output: every layer in turn applies the bias
    augmentation, the weights and the sigmoid. *)
Fixpoint feedForward (ws : list arr) (x : arr) : result arr :=
  match ws with
  | [] => Ok x
  | w :: ws' =>
      result_bind (biased x) (λ b,
      result_bind (matMul b w) (λ y, feedForward ws' (sigmoid y)))
  end.

(** [Signal[i+1] = sigmoid(matmul(addBias(Signal[i]), Weight[i]))]. *)
Definition layer_chain (s : ann) (i : nat) : Prop :=
  ∃ a w b y, signal s !! i = Some a ∧ weights s !! i = Some w ∧
             fst (addBias a s) = Ok b ∧ matMul b w = Ok y ∧
             signal s !! S i = Some (sigmoid y).

(** [deriv(out) = (1 - out) * out]. *)
Definition spec_deriv (out : arr) : result arr :=
  mul (rhsSub out (rconst 1%Q)) out.

(** [delta = transpose(deriv(outVec) * err)]. *)
Definition spec_delta (out err : arr) : result arr :=
  result_bind (spec_deriv out) (λ d,
  result_bind (mul d err) (λ de, Ok (transpose de))).

(** [transpose(matmul(delta, biasedIn) * alpha * -1 / m)]; the factor [-1]
    is the element-wise negation. *)
Definition spec_grad (delta biasedIn : arr) (alpha : R) (m : nat)
    : result arr :=
  result_bind (matMul delta biasedIn) (λ g,
  Ok (transpose (divS (neg (mulS g alpha)) (rofnat m)))).

(** The updated weight matrix of a layer with input [sig], output [out] and
    output error [err]. *)
Definition spec_update (w out err sig : arr) (alpha : R) (m : nat)
    : result arr :=
  result_bind (spec_delta out err) (λ delta,
  result_bind (biased sig) (λ b,
  result_bind (spec_grad delta b alpha m) (λ g, add w g))).

(** The error handed to the previous layer: [delta] and the weights, both
    transposed and multiplied, without column 0. *)
Definition spec_propagate (delta w sig : arr) : result arr :=
  result_bind (matMul (transpose delta) (transpose w)) (λ e1,
  at_cols (mkSeq 1 (Qnat (dim1 sig))) e1).

(** [propagated sig ws' top err0 c e]: [e] is the error at the output
    [sig[c]], the value of [err] when [backPropagate]'s loop is about to
    update [Weight[c-1]]. It starts as [err0] at [sig[top]] and goes from
    [sig[c+1]] to [sig[c]] through [delta] and the updated [Weight[c]],
    taken from [ws']. *)
Inductive propagated (sig ws' : list arr) (top : nat) (err0 : arr)
    : nat → arr → Prop :=
  | propagated_top : propagated sig ws' top err0 top err0
  | propagated_back c out e delta w' sc e' :
      propagated sig ws' top err0 (S c) e →
      sig !! S c = Some out →
      spec_delta out e = Ok delta →
      ws' !! c = Some w' →
      sig !! c = Some sc →
      spec_propagate delta w' sc = Ok e' →
      propagated sig ws' top err0 c e'.

(** What one call of [backPropagate] does to weight matrix [i]: with [out]
    the output of its layer, [e] the error propagated to that output and
    [sig] its input, the new matrix is [spec_update w out e sig alpha m]. *)
Definition weight_updated (s s' : ann) (top : nat) (err0 : arr)
    (alpha : R) (m : nat) (i : nat) : Prop :=
  ∃ out e sig w w',
    signal s !! S i = Some out ∧
    propagated (signal s) (weights s') top err0 (S i) e ∧
    signal s !! i = Some sig ∧
    weights s !! i = Some w ∧
    spec_update w out e sig alpha m = Ok w' ∧
    weights s' !! i = Some w'.

(** Element at row [i], column [j], read as a number. *)
Definition elt (a : arr) (i j : nat) : R :=
  default (rconst 0%Q) (get a i j).

(** The spec's error metric: the square root of the sum over all elements
    of the squared difference, divided by the number of elements of [out]. *)
Definition spec_error (out pred : arr) : R :=
  let sq i j := rmul (rsub (elt out i j) (elt pred i j))
                     (rsub (elt out i j) (elt pred i j)) in
  let total :=
    foldr radd (rconst 0%Q)
      (concat (map (λ i, map (sq i) (seq 0 (dim1 out))) (seq 0 (dim0 out)))) in
  rdiv (rsqrt total) (rofnat (dim0 out * dim1 out)).

(** A weight matrix as the constructor initialises it between a layer of
    [a] units and a layer of [b] units: uniform draws, times [range], minus
    [range / 2]. *)
Definition init_weight (draw : nat → R) (range : R) (a b : nat) (w : arr)
    : Prop :=
  ∃ pos, w = subS (mulS (fst (randu draw pos (a + 1) b)) range)
               (rdiv range (rconst 2%Q)).

(** The object the constructor has built after [k] iterations. *)
Definition constructed (draw : nat → R) (range : R) (layers : list nat)
    (k : nat) (self : ann) : Prop :=
  numLayers self = length layers ∧
  signal self = replicate k emptyArray ∧
  length (weights self) = k `min` (length layers - 1) ∧
  ∀ i a b, i < k → layers !! i = Some a → layers !! S i = Some b →
    ∃ w, weights self !! i = Some w ∧ init_weight draw range a b w.

(** A method body that leaves [numLayers] and the weights as they are,
    whether it returns or throws. *)
Definition keeps_weights {A} (m : M R A) : Prop :=
  ∀ s, numLayers (snd (m s)) = numLayers s ∧ weights (snd (m s)) = weights s.

(** Two network objects of the same layer sizes holding the same weights;
    their signals may differ. *)
Definition same_weights (layers : list nat) (s1 s2 : ann) : Prop :=
  net_shape layers s1 ∧ net_shape layers s2 ∧ weights s1 = weights s2.

(** Batch [j] of two training sets is the same pair of arrays, of a shape
    the network accepts. *)
Definition batch_agrees (layers : list nat) (b : nat)
    (input target input' target' : arr) (j : nat) : Prop :=
  ∃ x y, at_rows (batchSeq b j) input = Ok x ∧
         at_rows (batchSeq b j) input' = Ok x ∧
         at_rows (batchSeq b j) target = Ok y ∧
         at_rows (batchSeq b j) target' = Ok y ∧
         layers !! 0 = Some (dim1 x) ∧
         layers !! (length layers - 1) = Some (dim1 y) ∧
         dim0 y = dim0 x.

(** The validation rows of a training set exist and have a shape the
    network accepts. *)
Definition validation_ready (layers : list nat) (b : nat)
    (input target : arr) : Prop :=
  ∃ x y, at_rows (validationSeq (dim0 input) b) input = Ok x ∧
         at_rows (validationSeq (dim0 input) b) target = Ok y ∧
         layers !! 0 = Some (dim1 x) ∧
         layers !! (length layers - 1) = Some (dim1 y) ∧
         dim0 y = dim0 x.

(** The propagation with only the weights transposed:
    [matmul(delta, transpose(w))] without column 0. *)
Definition second_only_propagate (delta w sig : arr) : result arr :=
  result_bind (matMul delta (transpose w)) (λ e1,
  at_cols (mkSeq 1 (Qnat (dim1 sig))) e1).

(** A method body that leaves [numLayers] and the signals as they are,
    whether it returns or throws. *)
Definition keeps_signals {A} (m : M R A) : Prop :=
  ∀ s, numLayers (snd (m s)) = numLayers s ∧ signal (snd (m s)) = signal s.

(** [k] epochs in a row from [s] to [s'], each returning an error that
    does not satisfy [err < maxError]. *)
Inductive epochs_unconverged (input target : arr) (options : Options R)
    : nat → ann → ann → Prop :=
  | unconverged_none s : epochs_unconverged input target options 0 s s
  | unconverged_next k s e s1 s' :
      epoch input target options s = (Ok e, s1) →
      rltb e (maxError options) = false →
      epochs_unconverged input target options k s1 s' →
      epochs_unconverged input target options (S k) s s'.
End Specification.

(** ** Rational scalars, to run the definitions *)

Definition Q_sigmoid_surrogate (x : Q) : Q :=
  ((1 + x / (1 + Qabs x)) / 2)%Q.

Definition Qsqrt_floor (x : Q) : Q :=
  (Z.sqrt (Qnum x * Z.pos (Qden x)) # Qden x)%Q.

#[export] Instance Q_Num : Num Q := {|
  rconst q := q;
  radd := Qplus;
  rsub := Qminus;
  rmul := Qmult;
  rdiv := Qdiv;
  rneg := Qopp;
  rltb := Qltb;
  rfalsy x := Qeq_bool x 0
|}.

(** Rational stand-ins for the sigmoid and the square root; they only serve
    to run examples, the theorems hold for every [Elementary] instance. *)
#[export] Instance Q_Elementary : Elementary Q := {|
  rsigmoid := Q_sigmoid_surrogate;
  rsqrt := Qsqrt_floor
|}.

#[export] Instance Q_NumOrder : NumOrder Q.
Proof.
  refine {| rle := Qle |}; simpl.
  - intros x y _. apply Qle_refl.
  - intros x y _. apply Qle_refl.
  - intros x y z. apply Qle_trans.
  - intros x y r Hr _ Hxy _. by apply Qmult_le_compat_r.
  - intros r _. rewrite Qmult_0_l. apply Qle_refl.
  - intros r _. rewrite Qmult_1_l. apply Qle_refl.
  - intros x y r _ Hxy _. lra.
  - intros r _. lra.
  - intros r _. assert (r == r / 2 + r / 2)%Q as Hhalf by field.
    generalize dependent (r / 2)%Q. intros h Hh. lra.
Defined.

(** A backend that rejects every range outside the indexed dimension. *)
#[export] Instance strictSeq {R} : SeqPolicy R := {|
  seq_invalid _ _ := Err IndexError
|}.

(** ** Sample networks and data *)

(** Two inputs, two hidden units, one output. *)
Definition ex_layers : list nat := [2; 2; 1].

Definition ex_net : ANN Q :=
  mkANN 3 [emptyArray; emptyArray; emptyArray]
    [mkArr 3 2 [[1 # 10; -1 # 10]; [2 # 10; 1 # 10]; [-1 # 10; 2 # 10]]%Q;
     mkArr 3 1 [[1 # 10]; [-2 # 10]; [1 # 10]]%Q].

Definition ex_input : AFArray Q := mkArr 2 2 [[1; 0]; [0; 1]]%Q.

Definition ex_target : AFArray Q := mkArr 2 1 [[1]; [0]]%Q.

Definition ex_options (b : nat) : Options Q :=
  mkOptions b 3 (1 # 2)%Q (1 # 100)%Q.

(** Draws that alternate between the two ends of the unit interval. *)
Definition ex_draw (k : nat) : Q := if Nat.even k then 1%Q else 0%Q.

(** A hundred samples, and the same samples with rows 75..99 reversed. *)
Definition ex_input100 : AFArray Q :=
  mkArr 100 2 (map (λ i, [Qnat i; 1%Q]) (seq 0 100)).

Definition ex_target100 : AFArray Q :=
  mkArr 100 1 (map (λ i, [Qnat (i `mod` 2)]) (seq 0 100)).

Definition permute_tail (a : AFArray Q) : AFArray Q :=
  mkArr (dim0 a) (dim1 a) (take 75 (rows a) ++ reverse (drop 75 (rows a))).

(** One input, one hidden unit, two outputs, holding the signals of a
    batch of two samples. *)
Definition ex_square : ANN Q :=
  mkANN 3
    [mkArr 2 1 [[1]; [0]]%Q;
     mkArr 2 1 [[1 # 2]; [1 # 4]]%Q;
     mkArr 2 2 [[1 # 2; 1 # 4]; [1 # 2; 1 # 2]]%Q]
    [mkArr 2 1 [[1 # 10]; [2 # 10]]%Q;
     mkArr 2 2 [[1 # 10; 2 # 10]; [3 # 10; 4 # 10]]%Q].

Definition ex_square_target : AFArray Q := mkArr 2 2 [[1; 0]; [0; 1]]%Q.

(** The sample network after it has seen another batch: same weights,
    other signals. *)
Definition ex_net_seen : ANN Q :=
  mkANN 3
    [mkArr 1 2 [[1 # 2; 1 # 2]]%Q; mkArr 1 2 [[1 # 3; 1 # 3]]%Q;
     mkArr 1 1 [[1 # 4]]%Q]
    (weights ex_net).

(** A batch with three columns, one more than the sample network reads. *)
Definition ex_wide_input : AFArray Q := mkArr 2 3 [[1; 0; 1]; [0; 1; 1]]%Q.

(** Ten and four samples for the network [ex_net]. *)
Definition ex_input10 : AFArray Q :=
  mkArr 10 2 (map (λ i, [Qnat i; 1%Q]) (seq 0 10)).

Definition ex_target10 : AFArray Q :=
  mkArr 10 1 (map (λ i, [Qnat (i `mod` 2)]) (seq 0 10)).

Definition ex_input4 : AFArray Q :=
  mkArr 4 2 (map (λ i, [Qnat i; 1%Q]) (seq 0 4)).

(** ** Proofs *)

Section Proofs.
Context {R : Type} `{Num R} `{Elementary R} `{SeqPolicy R}.

Local Abbreviation arr := (AFArray R).
Local Abbreviation ann := (ANN R).

Lemma bind_ok {A B} (m : M R A) (k : A → M R B) (s s' : ann) (a : A) :
  m s = (Ok a, s') → (x <- m ;; k x) s = k a s'.
Proof. intros E. unfold bind. by rewrite E. Qed.

Lemma bind_lift {A B} (r : result A) (k : A → M R B) (s : ann) (a : A) :
  r = Ok a → (x <- lift r ;; k x) s = k a s.
Proof. intros ->. done. Qed.

Lemma ewise_ok f (a b : arr) :
  dim0 a = dim0 b → dim1 a = dim1 b →
  ewise f a b
  = Ok (mkArr (dim0 a) (dim1 a) (zip_with (zip_with f) (rows a) (rows b))).
Proof.
  intros E0 E1. unfold ewise. rewrite E0, E1, !Nat.eqb_refl. done.
Qed.

Lemma matMul_ok (a b : arr) :
  dim1 a = dim0 b →
  matMul a b
  = Ok (mkArr (dim0 a) (dim1 b)
          (map (λ r, map (dot r) (rows (transpose b))) (rows a))).
Proof. intros E. unfold matMul. by rewrite E, Nat.eqb_refl. Qed.

Lemma join1_ok (a b : arr) :
  dim0 a = dim0 b →
  join1 a b
  = Ok (mkArr (dim0 a) (dim1 a + dim1 b) (zip_with app (rows a) (rows b))).
Proof. intros E. unfold join1. by rewrite E, Nat.eqb_refl. Qed.

Lemma Qint_proper (q : Q) (z : Z) : (q == inject_Z z)%Q → Qint q = Some z.
Proof.
  intros E. unfold Qint.
  assert (Qfloor q = z) as -> by (rewrite E; apply Qfloor_Z).
  by rewrite (proj2 (Qeq_bool_iff _ _) (Qeq_sym _ _ E)).
Qed.

Lemma seq_range_ok (sb se : Q) (b e dim : nat) :
  (sb == Qnat b)%Q → (se == Qnat e)%Q → b ≤ e < dim →
  seq_range (mkSeq sb se) dim = Some (b, e - b + 1).
Proof.
  intros Eb Ee Hr. unfold seq_range. cbn [mkSeq seq_begin seq_end].
  rewrite (Qint_proper _ _ Eb), (Qint_proper _ _ Ee).
  replace ((0 <=? Z.of_nat b)%Z) with true by (symmetry; apply Z.leb_le; lia).
  replace ((Z.of_nat b <=? Z.of_nat e)%Z) with true
    by (symmetry; apply Z.leb_le; lia).
  replace ((Z.of_nat e <? Z.of_nat dim)%Z) with true
    by (symmetry; apply Z.ltb_lt; lia).
  simpl. f_equal. f_equal; lia.
Qed.

Lemma at_cols_ok (sb se : Q) (a : arr) (b e : nat) :
  (sb == Qnat b)%Q → (se == Qnat e)%Q → b ≤ e < dim1 a →
  at_cols (mkSeq sb se) a
  = Ok (mkArr (dim0 a) (e - b + 1)
          (map (λ r, take (e - b + 1) (drop b r)) (rows a))).
Proof.
  intros Eb Ee Hr. unfold at_cols.
  by rewrite (seq_range_ok _ _ _ _ _ Eb Ee Hr).
Qed.

Lemma at_rows_ok (sb se : Q) (a : arr) (b e : nat) :
  (sb == Qnat b)%Q → (se == Qnat e)%Q → b ≤ e < dim0 a →
  at_rows (mkSeq sb se) a
  = Ok (mkArr (e - b + 1) (dim1 a) (take (e - b + 1) (drop b (rows a)))).
Proof.
  intros Eb Ee Hr. unfold at_rows.
  by rewrite (seq_range_ok _ _ _ _ _ Eb Ee Hr).
Qed.

Lemma forwardStep_ok (s : ann) (i : nat) (a w : arr) :
  signal s !! i = Some a → weights s !! i = Some w →
  dim1 a + 1 = dim0 w → S i < length (signal s) →
  ∃ b y, fst (addBias a s) = Ok b ∧ matMul b w = Ok y ∧
         dim0 y = dim0 a ∧ dim1 y = dim1 w ∧
         forwardStep i s
         = (Ok tt, mkANN (numLayers s) (<[S i := sigmoid y]> (signal s))
                     (weights s)).
Proof.
  intros Ha Hw Hd Hlen.
  destruct (lookup_lt_is_Some_2 _ _ Hlen) as [old Hold].
  pose proof (join1_ok (constant (rconst 1%Q) (dim0 a)) a eq_refl) as Hj.
  set (b := mkArr _ _ _) in Hj.
  assert (dim1 b = dim0 w) as Hbw by (simpl; lia).
  pose proof (matMul_ok b w Hbw) as Hm.
  set (y := mkArr _ _ _) in Hm.
  exists b, y. repeat split; try done.
  unfold forwardStep, scope.
  erewrite bind_ok; [|unfold getSignal; by rewrite Ha].
  unfold addBias. erewrite bind_lift; [|exact Hj].
  erewrite bind_ok; [|unfold getWeight; by rewrite Hw].
  erewrite bind_lift; [|exact Hm].
  unfold setSignal. replace (i + 1) with (S i) by lia. by rewrite Hold.
Qed.

Lemma forward_loop (layers : list nat) (m : nat) (len k : nat) (s : ann) :
  net_shape layers s → k + len = length layers - 1 →
  signal_shape layers m s k →
  ∃ s', forEach (seq k len) forwardStep s = (Ok tt, s') ∧
        numLayers s' = numLayers s ∧ weights s' = weights s ∧
        length (signal s') = length (signal s) ∧
        (∀ j, j ≤ k → signal s' !! j = signal s !! j) ∧
        (∀ i, k ≤ i < k + len →
           ∃ a w b y, signal s' !! i = Some a ∧ weights s' !! i = Some w ∧
                      fst (addBias a s') = Ok b ∧ matMul b w = Ok y ∧
                      signal s' !! S i = Some (sigmoid y)) ∧
        (∀ i, k ≤ i ≤ k + len → signal_shape layers m s' i).
Proof.
  revert k s. induction len as [|len IH]; intros k s Hn Hk Hs.
  - exists s. simpl. repeat split; try done.
    + intros i Hi. lia.
    + intros i Hi. by replace i with k by lia.
  - destruct Hn as (Hnl & Hsl & Hwl & Hws).
    destruct Hs as (n & a & Hln & Ha & Hd0 & Hd1).
    assert (S k < length layers) as Hk1 by lia.
    destruct (lookup_lt_is_Some_2 layers (S k) Hk1) as [n' Hn'].
    assert (k < length (weights s)) as Hkw by lia.
    destruct (lookup_lt_is_Some_2 _ _ Hkw) as [w Hw].
    destruct (Hws k n n' w Hln Hn' Hw) as [Hw0 Hw1].
    destruct (forwardStep_ok s k a w Ha Hw) as (b & y & Hb & Hy & Hy0 & Hy1 & Hstep);
      [lia | lia |].
    set (s1 := mkANN _ _ _) in Hstep.
    destruct (IH (S k) s1) as (s' & Hrun & Hnum & Hwt & Hlen & Hkeep & Hrel & Hsh).
    + split; [done|]. split; [simpl; by rewrite length_insert|].
      split; [done|]. exact Hws.
    + lia.
    + exists n', (sigmoid y). repeat split; simpl; try done; try lia.
      apply list_lookup_insert_eq. lia.
    + exists s'. simpl. unfold bind at 1. rewrite Hstep.
      split; [exact Hrun|].
      split; [by rewrite Hnum|]. split; [by rewrite Hwt|].
      split; [by rewrite Hlen; simpl; rewrite length_insert|].
      assert (∀ j, j ≤ k → signal s' !! j = signal s !! j) as Hkeep'.
      { intros j Hj. rewrite Hkeep by lia. simpl.
        apply list_lookup_insert_ne. lia. }
      split; [exact Hkeep'|]. split.
      * intros i Hi. destruct (decide (i = k)) as [->|Hne].
        -- exists a, w, b, y. rewrite Hkeep' by lia. rewrite Hwt.
           repeat split; try done.
           rewrite Hkeep by lia. simpl. apply list_lookup_insert_eq. lia.
        -- apply Hrel. lia.
      * intros i Hi. destruct (decide (i = k)) as [->|Hne].
        -- exists n, a. by rewrite Hkeep' by lia.
        -- apply Hsh. lia.
Qed.

Lemma chain_feedForward (s : ann) (len k : nat) (x : arr) :
  k + len = length (weights s) →
  signal s !! k = Some x →
  (∀ i, k ≤ i < k + len → layer_chain s i) →
  ∃ out, signal s !! (k + len) = Some out ∧
         feedForward (drop k (weights s)) x = Ok out.
Proof.
  revert k x. induction len as [|len IH]; intros k x Hk Hx Hc.
  - exists x. rewrite Nat.add_0_r. split; [done|].
    rewrite drop_ge by lia. done.
  - destruct (Hc k) as (a & w & b & y & Ha & Hw & Hb & Hy & Hn); [lia|].
    assert (a = x) as -> by congruence.
    destruct (IH (S k) (sigmoid y)) as (out & Hout & Hff); [lia|done| |].
    { intros i Hi. apply Hc. lia. }
    exists out. split; [by replace (k + S len) with (S k + len) by lia|].
    rewrite (drop_S _ _ _ Hw). simpl.
    unfold addBias, lift in Hb. simpl in Hb. unfold biased.
    rewrite Hb. simpl. rewrite Hy. simpl. exact Hff.
Qed.

Lemma forwardPropagate_run (layers : list nat) (input : arr) (s : ann) :
  net_shape layers s → layers !! 0 = Some (dim1 input) →
  ∃ s', forwardPropagate input s = (Ok tt, s') ∧
        numLayers s' = numLayers s ∧ weights s' = weights s ∧
        signal s' !! 0 = Some input ∧
        (∀ i, i < length layers - 1 → layer_chain s' i) ∧
        (∃ out, fst (getLastSignal s') = Ok out ∧
                signal s' !! (length layers - 1) = Some out ∧
                feedForward (weights s') input = Ok out) ∧
        net_shape layers s' ∧
        (∀ i, i < length layers → signal_shape layers (dim0 input) s' i).
Proof.
  intros Hn Hl0.
  pose proof Hn as (Hnl & Hsl & Hwl & Hws).
  assert (0 < length layers) as HL by (by eapply lookup_lt_Some).
  destruct (lookup_lt_is_Some_2 (signal s) 0) as [old Hold]; [lia|].
  set (s0 := mkANN (numLayers s) (<[0:=input]> (signal s)) (weights s)).
  assert (setSignal 0 input s = (Ok tt, s0)) as Hset
    by (unfold setSignal; by rewrite Hold).
  assert (net_shape layers s0) as Hn0.
  { split; [done|]. split; [simpl; by rewrite length_insert|].
    split; [done|]. exact Hws. }
  destruct (forward_loop layers (dim0 input) (length layers - 1) 0 s0)
    as (s' & Hrun & Hnum & Hwt & Hlen & Hkeep & Hrel & Hsh); [done|lia| |].
  { exists (dim1 input), input. repeat split; try done.
    simpl. apply list_lookup_insert_eq. lia. }
  exists s'. unfold forwardPropagate. erewrite bind_ok; [|exact Hset].
  simpl numLayers. rewrite Hnl.
  split; [exact Hrun|]. split; [by rewrite Hnum|]. split; [by rewrite Hwt|].
  assert (signal s' !! 0 = Some input) as H0'.
  { rewrite Hkeep by lia. simpl. apply list_lookup_insert_eq. lia. }
  split; [done|].
  assert (∀ i, i < length layers - 1 → layer_chain s' i) as Hchain.
  { intros i Hi. apply Hrel. lia. }
  split; [done|].
  assert (net_shape layers s') as Hn'.
  { split; [by rewrite Hnum|]. split; [rewrite Hlen; simpl; by rewrite length_insert|].
    split; [by rewrite Hwt|]. by rewrite Hwt. }
  split.
  - destruct (chain_feedForward s' (length layers - 1) 0 input)
      as (out & Hout & Hff).
    + rewrite Hwt. simpl. lia.
    + done.
    + intros i Hi. apply Hchain. lia.
    + exists out. simpl in Hout. rewrite drop_0 in Hff.
      split; [|done]. unfold getLastSignal. simpl.
      rewrite Hnum. simpl. rewrite Hnl.
      destruct (length layers) as [|L] eqn:EL; [lia|].
      simpl in Hout. rewrite Nat.sub_0_r in Hout. by rewrite Hout.
  - split; [done|]. intros i Hi. apply Hsh. lia.
Qed.

Lemma addAssignWeight_ok (s : ann) (i : nat) (w g : arr) :
  weights s !! i = Some w → dim0 w = dim0 g → dim1 w = dim1 g →
  ∃ w', add w g = Ok w' ∧ dim0 w' = dim0 w ∧ dim1 w' = dim1 w ∧
        addAssignWeight i g s
        = (Ok tt, mkANN (numLayers s) (signal s) (<[i:=w']> (weights s))).
Proof.
  intros Hw E0 E1. pose proof (ewise_ok radd w g E0 E1) as Ha.
  eexists. split; [exact Ha|]. split; [done|]. split; [done|].
  unfold addAssignWeight. rewrite Hw. unfold add. by rewrite Ha.
Qed.

Lemma backwardStep_ok (s : ann) (alpha : R) (mm m i ni no : nat)
    (si w outVec err : arr) :
  signal s !! i = Some si → weights s !! i = Some w →
  dim0 si = m → dim1 si = ni → 1 ≤ ni →
  dim0 w = ni + 1 → dim1 w = no →
  dim0 outVec = m → dim1 outVec = no →
  dim0 err = m → dim1 err = no →
  ∃ w' delta e1 e',
    spec_update w outVec err si alpha mm = Ok w' ∧
    dim0 w' = dim0 w ∧ dim1 w' = dim1 w ∧
    spec_delta outVec err = Ok delta ∧
    matMul (transpose delta) (transpose w') = Ok e1 ∧
    dim0 e1 = m ∧ dim1 e1 = ni + 1 ∧
    e' = mkArr m ni (map (λ r, take ni (drop 1 r)) (rows e1)) ∧
    spec_propagate delta w' si = Ok e' ∧
    backwardStep alpha mm i outVec err s
    = (Ok (si, e'),
       mkANN (numLayers s) (signal s) (<[i:=w']> (weights s))).
Proof.
  intros Hsi Hw Hs0 Hs1 Hpos Hw0 Hw1 Ho0 Ho1 He0 He1.
  pose proof (join1_ok (constant (rconst 1%Q) (dim0 si)) si eq_refl) as Hj.
  set (b := mkArr _ _ _) in Hj.
  pose proof (ewise_ok rmul (rhsSub outVec (rconst 1%Q)) outVec eq_refl eq_refl)
    as Hd.
  set (d := mkArr _ _ _) in Hd.
  assert (dim0 d = dim0 err) as Hd0 by (simpl; congruence).
  assert (dim1 d = dim1 err) as Hd1 by (simpl; congruence).
  pose proof (ewise_ok rmul d err Hd0 Hd1) as Hde.
  set (de := mkArr _ _ _) in Hde.
  assert (dim1 (transpose de) = dim0 b) as Hdb by (simpl; congruence).
  pose proof (matMul_ok (transpose de) b Hdb) as Hg.
  set (g := mkArr _ _ _) in Hg.
  set (grad := divS (neg (mulS g alpha)) (rofnat mm)).
  destruct (addAssignWeight_ok s i w (transpose grad) Hw)
    as (w' & Hadd & Hw'0 & Hw'1 & Hassign).
  { simpl. lia. }
  { simpl. congruence. }
  assert (dim1 (transpose (transpose de)) = dim0 (transpose w')) as Hte
    by (simpl; congruence).
  pose proof (matMul_ok _ _ Hte) as He1'.
  set (e1 := mkArr _ _ _) in He1'.
  assert (at_cols (mkSeq 1 (Qnat (dim1 si))) e1
          = Ok (mkArr (dim0 e1) (dim1 si - 1 + 1)
                  (map (λ r, take (dim1 si - 1 + 1) (drop 1 r)) (rows e1))))
    as He2.
  { apply at_cols_ok; simpl; [done|done|]. lia. }
  replace (dim1 si - 1 + 1) with ni in He2 by lia.
  replace (dim0 e1) with m in He2 by (simpl; congruence).
  set (e2 := mkArr _ _ _) in He2.
  exists w', (transpose de), e1, e2.
  assert (spec_delta outVec err = Ok (transpose de)) as Hdelta.
  { unfold spec_delta, spec_deriv, mul. rewrite Hd. simpl. by rewrite Hde. }
  split.
  { unfold spec_update. rewrite Hdelta. simpl. unfold biased. rewrite Hj.
    simpl. unfold spec_grad. rewrite Hg. simpl. exact Hadd. }
  split; [done|]. split; [done|]. split; [done|]. split; [exact He1'|].
  split; [simpl; congruence|]. split; [simpl; lia|]. split; [done|].
  split.
  { unfold spec_propagate. rewrite He1'. simpl. exact He2. }
  unfold backwardStep, scope.
  erewrite bind_ok; [|unfold getSignal; by rewrite Hsi].
  unfold addBias. erewrite bind_lift; [|exact Hj].
  unfold deriv. erewrite bind_lift; [|exact Hd].
  erewrite bind_lift; [|exact Hde].
  erewrite bind_lift; [|exact Hg].
  erewrite bind_ok; [|exact Hassign].
  erewrite bind_ok; [|unfold getSignal; simpl; by rewrite Hsi].
  erewrite bind_ok;
    [|unfold getWeight; simpl; rewrite list_lookup_insert_eq; [done|];
      by eapply lookup_lt_Some].
  erewrite bind_lift; [|exact He1'].
  erewrite bind_lift; [|exact He2].
  done.
Qed.

Lemma propagated_extend (sig ws' : list arr) (k : nat)
    (err e2 out delta w' sk : arr) (c : nat) (e : arr) :
  sig !! S k = Some out → spec_delta out err = Ok delta →
  ws' !! k = Some w' → sig !! k = Some sk →
  spec_propagate delta w' sk = Ok e2 →
  propagated sig ws' k e2 c e →
  propagated sig ws' (S k) err c e.
Proof.
  intros Ho Hd Hw Hs Hp Hprop. induction Hprop.
  - eapply propagated_back; [apply propagated_top|done..].
  - eapply propagated_back; [exact IHHprop|done..].
Qed.

Lemma backward_loop (layers : list nat) (alpha : R) (mm m : nat) (k : nat)
    (s : ann) (outVec err : arr) :
  net_shape layers s → Forall (λ n, 1 ≤ n) layers →
  (∀ i, i < length layers → signal_shape layers m s i) →
  k < length layers →
  signal s !! k = Some outVec →
  dim0 err = m → dim1 err = dim1 outVec →
  ∃ s', backwardLoop alpha mm k outVec err s = (Ok tt, s') ∧
        numLayers s' = numLayers s ∧ signal s' = signal s ∧
        net_shape layers s' ∧
        (∀ j, k ≤ j → weights s' !! j = weights s !! j) ∧
        (∀ i, i < k → weight_updated s s' k err alpha mm i).
Proof.
  revert s outVec err.
  induction k as [|k IH]; intros s outVec err Hn Hpos Hsig Hk Hout He0 He1.
  - exists s. simpl. do 5 (split; [done|]). intros i Hi. lia.
  - pose proof Hn as (Hnl & Hsl & Hwl & Hws).
    destruct (Hsig (S k)) as (no & o & Hlo & Ho & Ho0 & Ho1); [lia|].
    assert (o = outVec) as -> by congruence.
    destruct (Hsig k) as (ni & sk & Hli & Hsk & Hs0 & Hs1); [lia|].
    assert (k < length (weights s)) as Hkw by lia.
    destruct (lookup_lt_is_Some_2 _ _ Hkw) as [w Hw].
    destruct (Hws k ni no w Hli Hlo Hw) as [Hw0 Hw1].
    assert (1 ≤ ni) as Hni.
    { rewrite Forall_forall in Hpos. apply Hpos.
      by eapply list_elem_of_lookup_2. }
    destruct (backwardStep_ok s alpha mm m k ni no sk w outVec err)
      as (w' & delta & e1 & e' & Hupd & Hw'0 & Hw'1 & Hdelta & _ & _ & _
          & He' & Hprop & Hstep); try done; try congruence.
    assert (dim0 e' = m ∧ dim1 e' = ni) as [He'0 He'1] by (by subst e').
    set (s1 := mkANN _ _ _) in Hstep.
    assert (net_shape layers s1) as Hn1.
    { split; [done|]. split; [done|].
      split; [simpl; by rewrite length_insert|].
      intros i a b0 wi Ha Hb Hwi. simpl in Hwi.
      destruct (decide (i = k)) as [->|Hne].
      - rewrite list_lookup_insert_eq in Hwi by done.
        assert (wi = w') as -> by congruence.
        assert (a = ni) as -> by congruence.
        assert (b0 = no) as -> by congruence. lia.
      - rewrite list_lookup_insert_ne in Hwi by done. by eapply Hws. }
    destruct (IH s1 sk e') as (s' & Hrun & Hnum & Hsg & Hn' & Hkeep & Hrel);
      try done; try lia; try congruence.
    exists s'. simpl. unfold bind at 1. rewrite Hstep. simpl.
    split; [exact Hrun|]. split; [by rewrite Hnum|].
    split; [by rewrite Hsg|]. split; [done|].
    assert (weights s' !! k = Some w') as Hwk.
    { rewrite Hkeep by lia. simpl. by apply list_lookup_insert_eq. }
    split.
    + intros j Hj. rewrite Hkeep by lia. simpl.
      apply list_lookup_insert_ne. lia.
    + intros i Hi. destruct (decide (i = k)) as [->|Hne].
      * exists outVec, err, sk, w, w'. repeat split; try done.
        apply propagated_top.
      * destruct (Hrel i) as (out & e & sg & wi & wi' & H1' & H2' & H3'
                                & H4' & H5' & H6'); [lia|].
        simpl in H1', H2', H3', H4'.
        rewrite list_lookup_insert_ne in H4' by done.
        exists out, e, sg, wi, wi'. repeat split; try done.
        by eapply propagated_extend.
Qed.

Lemma backPropagate_run (layers : list nat) (target : arr) (alpha : R)
    (s : ann) :
  net_shape layers s → Forall (λ n, 1 ≤ n) layers →
  (∀ i, i < length layers → signal_shape layers (dim0 target) s i) →
  layers !! (length layers - 1) = Some (dim1 target) →
  ∃ s' out err0,
    backPropagate target alpha s = (Ok tt, s') ∧
    numLayers s' = numLayers s ∧ signal s' = signal s ∧
    length (weights s') = length (weights s) ∧
    net_shape layers s' ∧
    signal s !! (length layers - 1) = Some out ∧
    sub out target = Ok err0 ∧
    ∀ i, i < length layers - 1 →
      weight_updated s s' (length layers - 1) err0 alpha (dim0 target) i.
Proof.
  intros Hn Hpos Hsig Hlast.
  pose proof Hn as (Hnl & Hsl & Hwl & Hws).
  assert (0 < length layers) as HL.
  { apply lookup_lt_Some in Hlast. lia. }
  destruct (Hsig (length layers - 1)) as (no & out & Hlo & Ho & Ho0 & Ho1);
    [lia|].
  assert (no = dim1 target) as -> by congruence.
  pose proof (ewise_ok rsub out target Ho0 Ho1) as Hsub.
  set (err0 := mkArr _ _ _) in Hsub.
  destruct (backward_loop layers alpha (dim0 target) (dim0 target)
              (length layers - 1) s out err0)
    as (s' & Hrun & Hnum & Hsg & Hn' & Hkeep & Hrel); try done; try lia.
  exists s', out, err0. unfold backPropagate, scope.
  erewrite bind_ok.
  2:{ unfold getLastSignal. rewrite Hnl.
      destruct (length layers) as [|L] eqn:EL; [lia|].
      simpl in Ho. rewrite Nat.sub_0_r in Ho. by rewrite Ho. }
  erewrite bind_lift; [|exact Hsub]. rewrite Hnl.
  split; [exact Hrun|]. split; [congruence|]. split; [done|].
  split; [destruct Hn' as (_ & _ & Hwl' & _); lia|]. split; [exact Hn'|].
  split; [done|]. split; [exact Hsub|]. exact Hrel.
Qed.

Lemma constant_wf (v : R) (n : nat) : wf_array (constant v n).
Proof.
  split; simpl; [by rewrite length_replicate|].
  apply Forall_forall. intros r Hr. by apply elem_of_replicate in Hr as [-> _].
Qed.

Lemma addBias_rows (t : arr) :
  biased t
  = Ok (mkArr (dim0 t) (1 + dim1 t)
          (zip_with app (replicate (dim0 t) [rconst 1%Q]) (rows t))).
Proof. unfold biased. by rewrite join1_ok. Qed.

(** C10: for a tensor [t] of shape [(b, n)], [addBias t] returns a new
    tensor of shape [(b, n + 1)] whose column 0 is all ones and whose
    columns [1 .. n] are the columns of [t]; the network object is left as
    it was. *)
Theorem addBias_spec (t : arr) (s : ann) :
  wf_array t →
  ∃ b, addBias t s = (Ok b, s) ∧
       dim0 b = dim0 t ∧ dim1 b = dim1 t + 1 ∧ wf_array b ∧
       (∀ i, i < dim0 t → get b i 0 = Some (rconst 1%Q)) ∧
       (∀ i j, get b i (S j) = get t i j).
Proof.
  intros [Hlen Hrows].
  eexists. split.
  { unfold addBias, lift. fold (biased t). by rewrite addBias_rows. }
  split; [done|]. split; [simpl; lia|].
  assert (∀ i, rows t !! i = None ∨
               ∃ r, rows t !! i = Some r ∧
                    zip_with app (replicate (dim0 t) [rconst 1%Q]) (rows t) !! i
                    = Some (rconst 1%Q :: r)) as Hrow.
  { intros i. destruct (rows t !! i) as [r|] eqn:Er; [right|by left].
    exists r. split; [done|]. rewrite lookup_zip_with.
    rewrite lookup_replicate_2 by (apply lookup_lt_Some in Er; lia).
    simpl. by rewrite Er. }
  split; [|split].
  - split; simpl.
    + rewrite length_zip_with, length_replicate. lia.
    + apply Forall_forall. intros r Hr.
      apply list_elem_of_lookup in Hr as [i Hi].
      destruct (Hrow i) as [Hn|(r' & Hr' & Hz)].
      * rewrite lookup_zip_with, Hn in Hi.
        destruct (replicate _ _ !! i); done.
      * assert (r = rconst 1%Q :: r') as -> by congruence. simpl.
        rewrite Forall_forall in Hrows. rewrite (Hrows r'); [lia|].
        by eapply list_elem_of_lookup_2.
  - intros i Hi. unfold get. simpl.
    destruct (Hrow i) as [Hn|(r' & Hr' & Hz)].
    + apply lookup_ge_None in Hn. lia.
    + by rewrite Hz.
  - intros i j. unfold get. simpl.
    destruct (Hrow i) as [Hn|(r' & Hr' & Hz)].
    + rewrite Hn. rewrite lookup_zip_with, Hn.
      by destruct (replicate _ _ !! i).
    + by rewrite Hz, Hr'.
Qed.

Lemma wf_rows_tabulate (a : arr) :
  wf_array a →
  rows a = map (λ i, map (λ j, elt a i j) (seq 0 (dim1 a))) (seq 0 (dim0 a)).
Proof.
  intros [Hlen Hrows]. apply list_eq. intros i.
  rewrite list_lookup_fmap.
  destruct (rows a !! i) as [r|] eqn:Er.
  - assert (i < dim0 a) as Hi by (apply lookup_lt_Some in Er; lia).
    rewrite lookup_seq_lt by done. simpl. f_equal.
    assert (length r = dim1 a) as Hr.
    { rewrite Forall_forall in Hrows. apply Hrows.
      by eapply list_elem_of_lookup_2. }
    apply list_eq. intros j. rewrite list_lookup_fmap.
    destruct (r !! j) as [x|] eqn:Ex.
    + assert (j < dim1 a) as Hj by (apply lookup_lt_Some in Ex; lia).
      rewrite lookup_seq_lt by done. simpl. unfold elt, get.
      rewrite Er. simpl. by rewrite Ex.
    + apply lookup_ge_None in Ex. rewrite lookup_seq_ge by lia. done.
  - apply lookup_ge_None in Er. rewrite lookup_seq_ge by lia. done.
Qed.

Lemma zip_with_tabulate {A B C} (f : A → B → C) (g : nat → A) (h : nat → B)
    (n : nat) :
  zip_with f (map g (seq 0 n)) (map h (seq 0 n))
  = map (λ i, f (g i) (h i)) (seq 0 n).
Proof.
  generalize 0. induction n as [|n IH]; intros k; simpl; [done|].
  by rewrite IH.
Qed.

(** C5: for tensors [out] and [pred] of one shape, the error metric is the
    square root of the sum over all elements of the squared difference,
    divided by the number of elements of [out]: the division comes after
    the square root. *)
Theorem calculateError_spec (out pred : arr) (s : ann) :
  wf_array out → wf_array pred →
  dim0 out = dim0 pred → dim1 out = dim1 pred →
  _calculateError out pred s = (Ok (spec_error out pred), s).
Proof.
  intros Ho Hp E0 E1. unfold _calculateError.
  erewrite bind_lift; [|by apply ewise_ok].
  erewrite bind_lift; [|by apply ewise_ok].
  unfold ret, spec_error, sumAll, elements. simpl.
  assert (zip_with (zip_with rmul)
            (zip_with (zip_with rsub) (rows out) (rows pred))
            (zip_with (zip_with rsub) (rows out) (rows pred))
          = map (λ i, map (λ j, rmul (rsub (elt out i j) (elt pred i j))
                                     (rsub (elt out i j) (elt pred i j)))
                        (seq 0 (dim1 out))) (seq 0 (dim0 out))) as ->; [|done].
  rewrite (wf_rows_tabulate out Ho), (wf_rows_tabulate pred Hp).
  rewrite <- E0, <- E1.
  rewrite zip_with_tabulate.
  rewrite (zip_with_tabulate (zip_with rmul)).
  apply map_ext. intros i.
  rewrite zip_with_tabulate.
  rewrite (zip_with_tabulate rmul). done.
Qed.

Lemma constructorLoop_spec (draw : nat → R) (range : R) (layers : list nat)
    (len k : nat) (self : ann) (pos : nat) :
  k + len = length layers →
  constructed draw range layers k self →
  ∃ self' pos',
    constructorLoop draw layers range (seq k len) self pos = Ok (self', pos')
    ∧ constructed draw range layers (k + len) self'.
Proof.
  revert k self pos. induction len as [|len IH]; intros k self pos Hk Hc.
  - exists self, pos. rewrite Nat.add_0_r. done.
  - destruct Hc as (Hnl & Hsig & Hwl & Hws). simpl. rewrite Hnl.
    replace (k + S len) with (S k + len) by lia.
    destruct (Z.ltb_spec (Z.of_nat k) (Z.of_nat (length layers) - 1)) as [Hlt|Hge].
    + destruct (lookup_lt_is_Some_2 layers k) as [a Ha]; [lia|].
      destruct (lookup_lt_is_Some_2 layers (k + 1)) as [b Hb]; [lia|].
      rewrite Ha, Hb. simpl. apply IH; [lia|].
      split; [done|]. split.
      { simpl. rewrite Hsig. symmetry. apply replicate_cons_app. }
      split; [cbn [weights]; rewrite length_app; cbn [length]; lia|].
      intros i a' b' Hi Ha' Hb'. simpl.
      destruct (decide (i = k)) as [->|Hne].
      * replace (k + 1) with (S k) in Hb by lia.
        assert (a' = a) as -> by congruence.
        assert (b' = b) as -> by congruence.
        eexists. split; [|by exists pos].
        rewrite lookup_app_r by lia.
        replace (k - length (weights self)) with 0 by lia. done.
      * destruct (Hws i a' b') as (w & Hw & Hi'); try done; [lia|].
        exists w. split; [|done]. by apply lookup_app_l_Some.
    + apply IH; [lia|].
      split; [done|]. split.
      { simpl. rewrite Hsig. symmetry. apply replicate_cons_app. }
      split; [cbn [weights]; lia|].
      intros i a' b' Hi Ha' Hb'. simpl.
      assert (S i < length layers) by (by eapply lookup_lt_Some).
      apply Hws; try done. lia.
Qed.

Lemma constructor_spec (draw : nat → R) (pos : nat) (layers : list nat)
    (range : option R) :
  ∃ net pos',
    constructor draw pos layers range = Ok (net, pos') ∧
    constructed draw (rangeOrDefault range) layers (length layers) net.
Proof.
  unfold constructor. simpl.
  apply (constructorLoop_spec _ _ _ (length layers) 0); [done|].
  split; [done|]. split; [done|]. split; [done|]. intros i a b Hi. lia.
Qed.

(** C6, as amended: for a layer-size sequence with fewer than two entries
    the constructor does not fail; it returns a network with as many empty
    signal placeholders as there are entries, no weight matrix, and the
    random generator untouched. *)
Theorem constructor_short_layers (draw : nat → R) (pos : nat)
    (layers : list nat) (range : option R) :
  length layers < 2 →
  constructor draw pos layers range
  = Ok (mkANN (length layers) (replicate (length layers) emptyArray) [], pos).
Proof.
  intros HL. destruct layers as [|a [|b layers]]; simpl in HL; [done|done|lia].
Qed.

Lemma Qltb_lt (x y : Q) : Qltb x y = true ↔ (x < y)%Q.
Proof.
  unfold Qltb. rewrite negb_true_iff. split.
  - intros Hf. apply Qnot_le_lt. intros Hle.
    apply Qle_bool_iff in Hle. congruence.
  - intros Hlt. destruct (Qle_bool y x) eqn:E; [|done].
    apply Qle_bool_iff in E. by apply Qlt_not_le in Hlt.
Qed.

Lemma Qnat_pos (b : nat) : 0 < b → (0 < Qnat b)%Q.
Proof. intros Hb. unfold Qnat. rewrite <- (Zlt_Qlt 0). lia. Qed.

Lemma Qnat_add (a b : nat) : (Qnat (a + b) == Qnat a + Qnat b)%Q.
Proof. unfold Qnat. by rewrite Nat2Z.inj_add, inject_Z_plus. Qed.

Lemma Qnat_mul (a b : nat) : (Qnat (a * b) == Qnat a * Qnat b)%Q.
Proof. unfold Qnat. by rewrite Nat2Z.inj_mul, inject_Z_mult. Qed.

Lemma Qnat_lt (a b : nat) : (Qnat a < Qnat b)%Q ↔ a < b.
Proof. unfold Qnat. rewrite <- Zlt_Qlt. lia. Qed.

Lemma Qnat_sub (a b : nat) : b ≤ a → (Qnat (a - b) == Qnat a - Qnat b)%Q.
Proof.
  intros Hle. unfold Qnat. rewrite Nat2Z.inj_sub by done.
  unfold Zminus. rewrite inject_Z_plus, inject_Z_opp. reflexivity.
Qed.

Lemma round64_proper (x y : Q) : (x == y)%Q → round64 x = round64 y.
Proof. intros E. unfold round64. by rewrite (Qred_complete x y E). Qed.

Lemma round_half_even_between (num den lo hi : Z) :
  (0 < den)%Z → (lo * den <= num <= hi * den)%Z →
  (lo <= round_half_even num den <= hi)%Z.
Proof.
  intros Hd [Hlo Hhi]. unfold round_half_even.
  pose proof (Z.div_mod num den ltac:(lia)) as Hdm.
  pose proof (Z.mod_pos_bound num den Hd) as Hm.
  assert (lo <= num / den)%Z by (apply Z.div_le_lower_bound; lia).
  assert (num / den <= hi)%Z by (apply Z.div_le_upper_bound; lia).
  destruct (Z.compare_spec (2 * (num mod den)) den) as [E|E|E];
    [destruct (Z.even (num / den))| |]; nia.
Qed.

(** Below [2 ^ 53] the last significant bit weighs at most one. *)
Lemma exponent64_nonpos (a d : Z) :
  (0 < a)%Z → (0 < d)%Z → (a < 2 ^ 53 * d)%Z → (exponent64 a d <= 0)%Z.
Proof.
  intros Ha Hd Hlt.
  destruct (Z.log2_spec a Ha) as [Ha1 Ha2].
  destruct (Z.log2_spec d Hd) as [Hd1 Hd2].
  pose proof (Z.log2_nonneg a) as Hla. pose proof (Z.log2_nonneg d) as Hld.
  assert (2 ^ Z.log2 a < 2 ^ (Z.log2 d + 54))%Z as Hp.
  { replace (Z.log2 d + 54)%Z with (53 + Z.succ (Z.log2 d))%Z by lia.
    rewrite Z.pow_add_r by lia. nia. }
  apply Z.pow_lt_mono_r_iff in Hp; [|lia|lia].
  unfold exponent64.
  destruct (Z.ltb_spec (scaled_num a (Z.log2 a - Z.log2 d - 53))
              (2 ^ 53 * scaled_den d (Z.log2 a - Z.log2 d - 53))) as [_|Hge];
    [lia|].
  destruct (Z.eq_dec (Z.log2 a - Z.log2 d - 53) 0) as [E0|]; [|lia].
  rewrite E0 in Hge. unfold scaled_num, scaled_den in Hge. simpl in Hge. lia.
Qed.

Lemma round64_pos_between (a d lo hi : Z) :
  (0 < a)%Z → (0 < d)%Z → (hi < 2 ^ 53)%Z → (lo * d <= a <= hi * d)%Z →
  (inject_Z lo <= round64_pos a d <= inject_Z hi)%Q.
Proof.
  intros Ha Hd Hhi [Hlo Hup].
  assert (exponent64 a d <= 0)%Z as He by (apply exponent64_nonpos; nia).
  unfold round64_pos. set (e := exponent64 a d) in *.
  destruct (Z.leb_spec 0 e) as [Hh0|Hh0].
  - assert (e = 0%Z) as -> by lia. unfold scaled_num, scaled_den. simpl.
    rewrite Z.mul_1_r.
    destruct (round_half_even_between a d lo hi) as [Hh1 Hh2]; [done|lia|].
    rewrite Z.mul_1_r. rewrite <- !Zle_Qle. lia.
  - unfold scaled_num, scaled_den.
    destruct (Z.leb_spec 0 e) as [|_]; [lia|].
    assert (0 < 2 ^ (- e))%Z as Hp by (apply Z.pow_pos_nonneg; lia).
    destruct (round_half_even_between (a * 2 ^ (- e)) d
                (lo * 2 ^ (- e)) (hi * 2 ^ (- e))) as [Hh1 Hh2]; [done|nia|].
    unfold Qle. simpl. rewrite Z2Pos.id by done. lia.
Qed.

(** Rounding to a double never crosses a whole number below [2 ^ 53]. *)
Lemma round64_between (x : Q) (lo hi : Z) :
  (- 2 ^ 53 < lo)%Z → (hi < 2 ^ 53)%Z →
  (inject_Z lo <= x <= inject_Z hi)%Q →
  (inject_Z lo <= round64 x <= inject_Z hi)%Q.
Proof.
  intros Hlo Hhi [Hh1 Hh2]. unfold round64.
  pose proof (Qred_correct x) as E. rewrite <- E in Hh1, Hh2.
  destruct (Qred x) as [n d]. unfold Qle in Hh1, Hh2. simpl in *.
  rewrite Z.mul_1_r in Hh1, Hh2.
  destruct n as [|a|a].
  - change (inject_Z lo <= inject_Z 0 <= inject_Z hi)%Q.
    rewrite <- !Zle_Qle. lia.
  - apply round64_pos_between; lia.
  - destruct (round64_pos_between (Z.pos a) (Z.pos d) (- hi) (- lo))
      as [Hh3 Hh4]; [lia|lia|lia|lia|].
    rewrite inject_Z_opp in Hh3, Hh4. split; lra.
Qed.

(** Whole numbers below [2 ^ 53] are doubles. *)
Lemma round64_Z (x : Q) (z : Z) :
  (- 2 ^ 53 < z < 2 ^ 53)%Z → (x == inject_Z z)%Q →
  (round64 x == inject_Z z)%Q.
Proof.
  intros [Hh1 Hh2] E.
  destruct (round64_between x z z) as [Hh3 Hh4]; [done|done| |].
  - rewrite E. split; apply Qle_refl.
  - by apply Qle_antisym.
Qed.

Lemma round64_nat (x : Q) (n : nat) :
  safe n → (x == Qnat n)%Q → (round64 x == Qnat n)%Q.
Proof. intros Hs E. apply round64_Z; [unfold safe in Hs; lia|done]. Qed.

Lemma safe_le (m n : nat) : m ≤ n → safe n → safe m.
Proof. unfold safe. lia. Qed.

Lemma Qnat_le (a b : nat) : (Qnat a <= Qnat b)%Q ↔ a ≤ b.
Proof. unfold Qnat. rewrite <- Zle_Qle. lia. Qed.

Lemma Qnat_eq (a b : nat) : (Qnat a == Qnat b)%Q ↔ a = b.
Proof. unfold Qnat. rewrite inject_Z_injective. lia. Qed.

Lemma Qnat_nonzero (b : nat) : 0 < b → Qeq_bool (Qnat b) 0 = false.
Proof.
  intros Hb. destruct (Qeq_bool (Qnat b) 0) eqn:E; [|done].
  apply Qeq_bool_iff in E. apply (Qnat_eq b 0) in E. lia.
Qed.

(** [numBatches] for a positive batch size: a finite number between any
    two whole numbers that enclose the exact quotient. *)
Lemma numBatches_between (n b lo hi : nat) :
  0 < b → safe hi → lo * b ≤ n ≤ hi * b →
  ∃ q, numBatchesOf n b = Fin q ∧ (Qnat lo <= q <= Qnat hi)%Q.
Proof.
  intros Hb Hs [Hlo Hhi]. pose proof (Qnat_pos b Hb) as Hq.
  exists (round64 (Qnat n / Qnat b)). split.
  { unfold numBatchesOf, js_div. by rewrite Qnat_nonzero. }
  assert (lo ≤ hi) as Hlh by nia.
  apply round64_between; [unfold safe in Hs; lia|done|].
  split.
  - apply Qle_shift_div_l; [done|]. rewrite <- (Qnat_mul lo b).
    by apply Qnat_le.
  - apply Qle_shift_div_r; [done|]. rewrite <- (Qnat_mul hi b).
    by apply Qnat_le.
Qed.

(** The bound [numBatches - 1] of the batch loop. *)
Lemma loopBound_between (n b lo hi : nat) :
  0 < b → safe hi → lo * b ≤ n ≤ hi * b →
  ∃ q, js_sub (numBatchesOf n b) 1 = Fin q ∧
       (inject_Z (Z.of_nat lo - 1) <= q <= inject_Z (Z.of_nat hi - 1))%Q.
Proof.
  intros Hb Hs Hr.
  destruct (numBatches_between n b lo hi Hb Hs Hr) as (q & -> & Hh1 & Hh2).
  exists (round64 (q - 1)). split; [done|].
  assert (lo ≤ hi) as Hlh by nia.
  apply round64_between; [lia|unfold safe in Hs; lia|].
  unfold Zminus. rewrite !inject_Z_plus. unfold Qnat in Hh1, Hh2.
  change (inject_Z (- (1))) with (-1 # 1)%Q. split; lra.
Qed.

Lemma countUp_seq (fuel j : nat) (bound : jsnum) (k : nat) :
  (∀ i, js_ltb (Qnat i) bound = true ↔ i < k) → j ≤ k < j + fuel →
  countUp fuel j bound = (seq j (k - j), true).
Proof.
  intros Htest. revert j. induction fuel as [|fuel IH]; intros j Hk; [lia|].
  simpl. destruct (js_ltb (Qnat j) bound) eqn:E.
  - apply Htest in E. rewrite IH by lia.
    replace (k - j) with (S (k - S j)) by lia. done.
  - assert (¬ j < k) as Hn by (rewrite <- Htest; congruence).
    by replace (k - j) with 0 by lia.
Qed.

(** For a positive batch size the batch loop ends, after the batches
    [j = 0, 1, ...] below the bound [numBatches - 1]. *)
Lemma trainCount_seq (n b hi : nat) :
  0 < b → safe hi → n ≤ hi * b → hi ≤ S n →
  ∃ q k, js_sub (numBatchesOf n b) 1 = Fin q ∧
         trainCount n b = (seq 0 k, true) ∧
         (∀ i, i < k ↔ (Qnat i < q)%Q) ∧ k ≤ hi - 1.
Proof.
  intros Hb Hs Hhi Hfuel.
  destruct (loopBound_between n b 0 hi Hb Hs) as (q & Eq & Hh1 & Hh2); [lia|].
  assert (∀ i, i < Z.to_nat (Qceiling q) ↔ (Qnat i < q)%Q) as Htest.
  { intros i. pose proof (Qle_ceiling q) as Hc1.
    pose proof (Qceiling_lt q) as Hc2. split.
    - intros Hlt. eapply Qle_lt_trans; [|exact Hc2].
      unfold Qnat. rewrite <- Zle_Qle. lia.
    - intros Hlt.
      assert (Qnat i < inject_Z (Qceiling q))%Q as Hlt'
        by (by eapply Qlt_le_trans).
      unfold Qnat in Hlt'. rewrite <- Zlt_Qlt in Hlt'. lia. }
  assert (Z.to_nat (Qceiling q) ≤ hi - 1) as Hk.
  { assert (Qceiling q <= Z.of_nat hi - 1)%Z; [|lia].
    rewrite <- (Qceiling_Z (Z.of_nat hi - 1)). by apply Qceiling_resp_le. }
  exists q, (Z.to_nat (Qceiling q)). split; [done|].
  split; [|done]. unfold trainCount. rewrite Eq.
  rewrite (countUp_seq _ 0 _ (Z.to_nat (Qceiling q))).
  - by rewrite Nat.sub_0_r.
  - intros i. simpl. fold (Qltb (Qnat i) q). rewrite Qltb_lt. by rewrite Htest.
  - lia.
Qed.

Lemma trainIndices_test (n b j : nat) :
  0 < b → safe n →
  ∃ q, js_sub (numBatchesOf n b) 1 = Fin q ∧
       (j ∈ trainIndices n b ↔ (Qnat j < q)%Q) ∧
       trainLoopEnds n b = true.
Proof.
  intros Hb Hs.
  destruct (trainCount_seq n b n Hb Hs) as (q & k & Eq & Ec & Ht & _);
    [nia|lia|].
  exists q. unfold trainIndices, trainLoopEnds. rewrite Ec. simpl.
  split; [done|]. split; [|done].
  rewrite elem_of_seq, <- Ht. lia.
Qed.

(** With [batchSize >= numSamples] the batch loop ends at once. *)
Lemma trainCount_oversized (n b : nat) :
  0 < b → n ≤ b → trainCount n b = ([], true).
Proof.
  intros Hb Hle.
  destruct (trainCount_seq n b 1 Hb) as (q & k & _ & Ec & _ & Hk);
    [by vm_compute|lia|lia|].
  rewrite Ec. by replace k with 0 by lia.
Qed.

(** Every training batch lies inside the input. *)
Lemma trainIndices_inside (n b j : nat) :
  0 < b → safe n → j ∈ trainIndices n b → j * b + b ≤ n.
Proof.
  intros Hb Hs Hj.
  pose proof (Nat.div_mod n b ltac:(lia)) as Hdm.
  pose proof (Nat.mod_upper_bound n b ltac:(lia)) as Hub.
  destruct (decide (n `mod` b = 0)) as [E0|Hne].
  - destruct (trainCount_seq n b (n / b) Hb) as (q & k & _ & Ec & _ & Hk).
    { eapply safe_le; [|exact Hs]. nia. }
    { lia. }
    { nia. }
    unfold trainIndices in Hj. rewrite Ec in Hj. simpl in Hj.
    apply elem_of_seq in Hj. nia.
  - destruct (trainCount_seq n b (n / b + 1) Hb) as (q & k & _ & Ec & _ & Hk).
    { eapply safe_le; [|exact Hs]. nia. }
    { nia. }
    { nia. }
    unfold trainIndices in Hj. rewrite Ec in Hj. simpl in Hj.
    apply elem_of_seq in Hj. nia.
Qed.

(** The range of a training batch inside the input, in whole rows. *)
Lemma batchSeq_whole (b j n : nat) :
  0 < b → safe n → j * b + b ≤ n →
  ∃ sb se, batchSeq b j = mkSeq sb se ∧
           (sb == Qnat (j * b))%Q ∧ (se == Qnat (j * b + b - 1))%Q.
Proof.
  intros Hb Hs Hle. eexists _, _. split; [reflexivity|].
  assert (round64 (Qnat j * Qnat b) == Qnat (j * b))%Q as E1.
  { apply round64_nat; [eapply safe_le; [|exact Hs]; lia|].
    by rewrite Qnat_mul. }
  assert (round64 (round64 (Qnat j * Qnat b) + Qnat b) == Qnat (j * b + b))%Q
    as E2.
  { apply round64_nat; [eapply safe_le; [|exact Hs]; lia|].
    by rewrite E1, Qnat_add. }
  split; [done|].
  apply round64_nat; [eapply safe_le; [|exact Hs]; lia|].
  rewrite E2. rewrite Qnat_sub by lia. reflexivity.
Qed.

Lemma batch_range (b j n : nat) :
  0 < b → safe n → j * b + b ≤ n →
  seq_range (batchSeq b j) n = Some (j * b, b).
Proof.
  intros Hb Hs Hle.
  destruct (batchSeq_whole b j n Hb Hs Hle) as (sb & se & -> & E1 & E2).
  rewrite (seq_range_ok _ _ (j * b) (j * b + b - 1)) by (done || lia).
  do 2 f_equal. lia.
Qed.

(** The validation range when [batchSize] divides [numSamples]: every
    step of the computation is exact. *)
Lemma validationSeq_whole (n b : nat) :
  0 < b → b ≤ n → n `mod` b = 0 → safe n →
  ∃ sb se, validationSeq n b = mkSeq sb se ∧
           (sb == Qnat (n - b))%Q ∧ (se == Qnat (n - 1))%Q.
Proof.
  intros Hb Hle Hmod Hs. pose proof (Qnat_pos b Hb) as Hq.
  pose proof (Nat.div_mod n b ltac:(lia)) as Hdm. rewrite Hmod in Hdm.
  assert (1 ≤ n / b) as Hf by nia.
  eexists _, _. split.
  { unfold validationSeq, numBatchesOf, js_div. rewrite Qnat_nonzero by done.
    reflexivity. }
  assert (round64 (Qnat n / Qnat b) == Qnat (n / b))%Q as E1.
  { apply round64_nat; [eapply safe_le; [|exact Hs]; nia|].
    rewrite Hdm at 1. rewrite Nat.add_0_r, Qnat_mul. field.
    intros E0. rewrite E0 in Hq. by apply Qlt_irrefl in Hq. }
  assert (round64 (round64 (Qnat n / Qnat b) - 1) == Qnat (n / b - 1))%Q
    as E2.
  { apply round64_nat; [eapply safe_le; [|exact Hs]; nia|].
    rewrite E1. rewrite Qnat_sub by lia. reflexivity. }
  split.
  - apply round64_nat; [eapply safe_le; [|exact Hs]; lia|].
    rewrite E2, <- (Qnat_mul (n / b - 1) b). apply Qnat_eq. nia.
  - apply round64_nat; [eapply safe_le; [|exact Hs]; lia|].
    rewrite Qnat_sub by lia. reflexivity.
Qed.

Lemma validation_range (n b : nat) :
  0 < b → b ≤ n → n `mod` b = 0 → safe n →
  seq_range (validationSeq n b) n = Some (n - b, b).
Proof.
  intros Hb Hle Hmod Hs.
  destruct (validationSeq_whole n b Hb Hle Hmod Hs) as (sb & se & -> & E1 & E2).
  rewrite (seq_range_ok _ _ (n - b) (n - 1)) by (done || lia).
  do 2 f_equal. lia.
Qed.

(** When [batchSize] divides [numSamples] the training batches are
    batches [0 .. numSamples / batchSize - 2]. *)
Lemma trainIndices_dividing (n b : nat) :
  0 < b → n `mod` b = 0 → safe n →
  trainCount n b = (seq 0 (n / b - 1), true).
Proof.
  intros Hb Hmod Hs.
  pose proof (Nat.div_mod n b ltac:(lia)) as Hdm. rewrite Hmod in Hdm.
  assert (safe (n / b)) as Hsf by (eapply safe_le; [|exact Hs]; nia).
  destruct (trainCount_seq n b (n / b) Hb) as (q & k & Eq & Ec & Ht & Hk);
    [done|lia|nia|].
  destruct (loopBound_between n b (n / b) (n / b) Hb) as (q' & Eq' & Hh1 & Hh2);
    [done|lia|].
  assert (q' = q) as -> by congruence.
  rewrite Ec. do 2 f_equal.
  destruct (decide (n / b - 1 = 0)) as [E1|Hne1]; [lia|].
  assert (n / b - 1 - 1 < k); [|lia].
  apply Ht. eapply Qlt_le_trans; [|exact Hh1].
  unfold Qnat. rewrite <- Zlt_Qlt. lia.
Qed.

Lemma Qint_inv (q : Q) (z : Z) : Qint q = Some z → (q == inject_Z z)%Q.
Proof.
  unfold Qint. destruct (Qeq_bool (inject_Z (Qfloor q)) q) eqn:E; [|done].
  intros [= <-]. apply Qeq_bool_iff in E. by symmetry.
Qed.

(** Below [2 ^ (53 - k)] the last significant bit weighs at most
    [2 ^ (- k)]. *)
Lemma exponent64_le (a d k : Z) :
  (0 < a)%Z → (0 < d)%Z → (0 <= k)%Z → (a * 2 ^ k < 2 ^ 53 * d)%Z →
  (exponent64 a d <= - k)%Z.
Proof.
  intros Ha Hd Hk Hlt.
  destruct (Z.log2_spec a Ha) as [Ha1 Ha2].
  destruct (Z.log2_spec d Hd) as [Hd1 Hd2].
  pose proof (Z.log2_nonneg a) as Hla. pose proof (Z.log2_nonneg d) as Hld.
  assert (0 < 2 ^ k)%Z as Hpk by (apply Z.pow_pos_nonneg; lia).
  assert (2 ^ (Z.log2 a + k) < 2 ^ (Z.log2 d + 54))%Z as Hp.
  { replace (Z.log2 d + 54)%Z with (53 + Z.succ (Z.log2 d))%Z by lia.
    rewrite !Z.pow_add_r by lia. nia. }
  apply Z.pow_lt_mono_r_iff in Hp; [|lia|lia].
  unfold exponent64.
  destruct (Z.ltb_spec (scaled_num a (Z.log2 a - Z.log2 d - 53))
              (2 ^ 53 * scaled_den d (Z.log2 a - Z.log2 d - 53))) as [_|Hge];
    [lia|].
  destruct (Z.eq_dec (Z.log2 a - Z.log2 d - 53) (- k)) as [E0|]; [|lia].
  rewrite E0 in Hge. unfold scaled_num, scaled_den in Hge.
  destruct (Z.leb_spec 0 (- k)) as [Hk0|Hk0].
  - assert (k = 0%Z) as -> by lia. simpl in Hge. lia.
  - rewrite Z.opp_involutive in Hge. lia.
Qed.

Lemma round64_pos_between_dyadic (a d lo hi k : Z) :
  (0 < a)%Z → (0 < d)%Z → (0 <= k)%Z → (hi < 2 ^ 53)%Z →
  (lo * d <= a * 2 ^ k <= hi * d)%Z →
  (inject_Z lo / inject_Z (2 ^ k) <= round64_pos a d
   <= inject_Z hi / inject_Z (2 ^ k))%Q.
Proof.
  intros Ha Hd Hk Hhi [Hlo Hup].
  assert (0 < 2 ^ k)%Z as Hpk by (apply Z.pow_pos_nonneg; lia).
  assert (0 < inject_Z (2 ^ k))%Q as Hqk by (by rewrite <- (Zlt_Qlt 0)).
  assert (exponent64 a d <= - k)%Z as He by (apply exponent64_le; nia).
  unfold round64_pos. set (e := exponent64 a d) in *.
  assert (0 < 2 ^ (- e - k))%Z as Hpe by (apply Z.pow_pos_nonneg; lia).
  assert (2 ^ (- e) = 2 ^ (- e - k) * 2 ^ k)%Z as Epow.
  { rewrite <- Z.pow_add_r by lia. f_equal. lia. }
  destruct (Z.leb_spec 0 e) as [Hz|Hz].
  - assert (e = 0%Z) as -> by lia. assert (k = 0%Z) as -> by lia.
    unfold scaled_num, scaled_den. simpl. rewrite Z.mul_1_r.
    simpl in Hlo, Hup. rewrite Z.mul_1_r in Hlo, Hup.
    destruct (round_half_even_between a d lo hi) as [Hr1 Hr2]; [done|lia|].
    rewrite Z.mul_1_r.
    split; [apply Qle_shift_div_r; [done|]|apply Qle_shift_div_l; [done|]];
      rewrite <- inject_Z_mult, <- Zle_Qle; lia.
  - unfold scaled_num, scaled_den.
    destruct (Z.leb_spec 0 e) as [|_]; [lia|].
    destruct (round_half_even_between (a * 2 ^ (- e)) d
                (lo * 2 ^ (- e - k)) (hi * 2 ^ (- e - k))) as [Hr1 Hr2];
      [done|rewrite Epow; nia|].
    assert (0 < 2 ^ (- e))%Z as Hpn by (apply Z.pow_pos_nonneg; lia).
    set (m := round_half_even (a * 2 ^ (- e)) d) in *.
    split.
    + apply Qle_shift_div_r; [done|]. unfold Qle. simpl.
      rewrite ?Pos.mul_1_r, Z2Pos.id by done. rewrite Epow. nia.
    + apply Qle_shift_div_l; [done|]. unfold Qle. simpl.
      rewrite ?Pos.mul_1_r, Z2Pos.id by done. rewrite Epow. nia.
Qed.

(** Rounding to a double never crosses a double [z / 2 ^ k] with
    [|z| < 2 ^ 53]. *)
Lemma round64_between_dyadic (x : Q) (lo hi k : Z) :
  (0 <= k)%Z → (- 2 ^ 53 < lo)%Z → (hi < 2 ^ 53)%Z →
  (inject_Z lo / inject_Z (2 ^ k) <= x <= inject_Z hi / inject_Z (2 ^ k))%Q →
  (inject_Z lo / inject_Z (2 ^ k) <= round64 x
   <= inject_Z hi / inject_Z (2 ^ k))%Q.
Proof.
  intros Hk Hlo Hhi [Hb1 Hb2].
  assert (0 < 2 ^ k)%Z as Hpk by (apply Z.pow_pos_nonneg; lia).
  assert (0 < inject_Z (2 ^ k))%Q as Hqk by (by rewrite <- (Zlt_Qlt 0)).
  unfold round64.
  pose proof (Qred_correct x) as E. rewrite <- E in Hb1, Hb2.
  apply (Qmult_le_compat_r _ _ (inject_Z (2 ^ k))) in Hb1;
    [|by apply Qlt_le_weak].
  apply (Qmult_le_compat_r _ _ (inject_Z (2 ^ k))) in Hb2;
    [|by apply Qlt_le_weak].
  assert (∀ z, inject_Z z / inject_Z (2 ^ k) * inject_Z (2 ^ k)
               == inject_Z z)%Q as Ecancel
    by (intros z; field; intros E0; rewrite E0 in Hqk;
        by apply Qlt_irrefl in Hqk).
  rewrite Ecancel in Hb1, Hb2. clear Ecancel.
  destruct (Qred x) as [n d]. unfold Qle in Hb1, Hb2. simpl in *.
  rewrite Z.mul_1_r in Hb1, Hb2.
  destruct n as [|a|a].
  - split.
    + apply Qle_shift_div_r; [done|]. rewrite Qmult_0_l.
      change 0%Q with (inject_Z 0). rewrite <- Zle_Qle. lia.
    + apply Qle_shift_div_l; [done|]. rewrite Qmult_0_l.
      change 0%Q with (inject_Z 0). rewrite <- Zle_Qle. lia.
  - apply round64_pos_between_dyadic; lia.
  - destruct (round64_pos_between_dyadic (Z.pos a) (Z.pos d) (- hi) (- lo) k)
      as [Hr1 Hr2]; [lia|lia|lia|lia|lia|].
    rewrite inject_Z_opp in Hr1, Hr2.
    assert (∀ z, - inject_Z z / inject_Z (2 ^ k)
                 == - (inject_Z z / inject_Z (2 ^ k)))%Q as Eopp
      by (intros z; field; intros E0; rewrite E0 in Hqk;
          by apply Qlt_irrefl in Hqk).
    rewrite Eopp in Hr1, Hr2. split; lra.
Qed.

(** A double [z / 2 ^ k] with [|z| < 2 ^ 53] is its own rounding. *)
Lemma round64_dyadic (x : Q) (z k : Z) :
  (0 <= k)%Z → (- 2 ^ 53 < z < 2 ^ 53)%Z →
  (x == inject_Z z / inject_Z (2 ^ k))%Q →
  (round64 x == inject_Z z / inject_Z (2 ^ k))%Q.
Proof.
  intros Hk [Hz1 Hz2] E.
  destruct (round64_between_dyadic x z z k) as [Hr1 Hr2]; [done|done|done| |].
  - rewrite E. split; apply Qle_refl.
  - by apply Qle_antisym.
Qed.

(** The significand of a rounded positive number is positive. *)
Lemma round64_pos_pos (a d : Z) :
  (0 < a)%Z → (0 < d)%Z → (0 < round64_pos a d)%Q.
Proof.
  intros Ha Hd.
  destruct (Z.log2_spec a Ha) as [Ha1 Ha2].
  destruct (Z.log2_spec d Hd) as [Hd1 Hd2].
  pose proof (Z.log2_nonneg a) as Hla. pose proof (Z.log2_nonneg d) as Hld.
  assert (exponent64 a d <= Z.log2 a - Z.log2 d - 52)%Z as He.
  { unfold exponent64.
    destruct (scaled_num a (Z.log2 a - Z.log2 d - 53)
              <? 2 ^ 53 * scaled_den d (Z.log2 a - Z.log2 d - 53))%Z; lia. }
  unfold round64_pos. set (e := exponent64 a d) in *.
  assert (scaled_den d e <= scaled_num a e ∧ 0 < scaled_den d e)%Z
    as [Hge Hden].
  { unfold scaled_num, scaled_den. destruct (Z.leb_spec 0 e) as [Hz|Hz].
    - assert (0 < 2 ^ e)%Z by (apply Z.pow_pos_nonneg; lia).
      split; [|nia].
      assert (2 ^ (Z.succ (Z.log2 d) + e) <= 2 ^ Z.log2 a)%Z as Hp
        by (apply Z.pow_le_mono_r; lia).
      rewrite Z.pow_add_r in Hp by lia. nia.
    - assert (0 < 2 ^ (- e))%Z by (apply Z.pow_pos_nonneg; lia).
      split; [|done].
      assert (2 ^ Z.succ (Z.log2 d) <= 2 ^ (Z.log2 a + - e))%Z as Hp
        by (apply Z.pow_le_mono_r; lia).
      rewrite Z.pow_add_r in Hp by lia. nia. }
  destruct (round_half_even_between (scaled_num a e) (scaled_den d e) 1
              (scaled_num a e)) as [Hm _]; [done|nia|].
  set (m := round_half_even (scaled_num a e) (scaled_den d e)) in *.
  destruct (Z.leb_spec 0 e) as [Hz|Hz].
  - assert (0 < 2 ^ e)%Z by (apply Z.pow_pos_nonneg; lia).
    rewrite <- (Zlt_Qlt 0). nia.
  - unfold Qlt. simpl. lia.
Qed.

(** Rounding keeps the sign of a negative number. *)
Lemma round64_negative (x : Q) : (x < 0)%Q → (round64 x < 0)%Q.
Proof.
  intros Hx. unfold round64.
  pose proof (Qred_correct x) as E. rewrite <- E in Hx.
  destruct (Qred x) as [n d]. unfold Qlt in Hx. simpl in *.
  destruct n as [|a|a]; [lia|lia|].
  pose proof (round64_pos_pos (Z.pos a) (Z.pos d) ltac:(lia) ltac:(lia))
    as Hp.
  lra.
Qed.

(** With [batchSize > numSamples] the validation range starts before the
    first row. *)
Lemma validationSeq_oversized (n b : nat) :
  0 < n → n < b → safe b →
  ∃ sb se, validationSeq n b = mkSeq sb se ∧ (sb < 0)%Q.
Proof.
  intros Hn Hlt Hs. pose proof (Qnat_pos b ltac:(lia)) as Hq.
  eexists _, _. split.
  { unfold validationSeq, numBatchesOf, js_div.
    rewrite Qnat_nonzero by lia. reflexivity. }
  assert (0 < inject_Z (2 ^ 53))%Q as Hp by reflexivity.
  assert (round64 (Qnat n / Qnat b) <= inject_Z (2 ^ 53 - 1) / inject_Z (2 ^ 53))%Q
    as Hnb.
  { apply (round64_between_dyadic _ 0 (2 ^ 53 - 1) 53); [lia|lia|lia|].
    split.
    - assert (inject_Z 0 / inject_Z (2 ^ 53) == 0)%Q as -> by reflexivity.
      apply Qle_shift_div_l; [done|]. rewrite Qmult_0_l.
      apply Qlt_le_weak. by apply Qnat_pos.
    - apply Qle_shift_div_r; [done|].
      apply (Qmult_le_r _ _ (inject_Z (2 ^ 53))); [done|].
      assert (inject_Z (2 ^ 53 - 1) / inject_Z (2 ^ 53) * Qnat b
              * inject_Z (2 ^ 53) == inject_Z (2 ^ 53 - 1) * Qnat b)%Q as ->
        by (field; discriminate).
      unfold Qnat. rewrite <- !inject_Z_mult, <- Zle_Qle.
      unfold safe in Hs. nia. }
  assert (round64 (round64 (Qnat n / Qnat b) - 1) < 0)%Q as Hq'.
  { apply round64_negative.
    assert (inject_Z (2 ^ 53 - 1) / inject_Z (2 ^ 53) < 1)%Q as Hone
      by reflexivity.
    lra. }
  apply round64_negative.
  rewrite <- (Qmult_0_l (Qnat b)). by apply Qmult_lt_compat_r.
Qed.

(** A batch size that is a power of two divides exactly in doubles, so
    the validation range is whole, whether or not it divides
    [numSamples]. *)
Lemma validationSeq_power_of_two (n b k : nat) :
  b = 2 ^ k → b ≤ n → safe n →
  seq_range (validationSeq n b) n = Some (n - b, b).
Proof.
  intros Eb Hle Hs.
  assert (0 < b) as Hb by (subst b; apply Nat.neq_0_lt_0, Nat.pow_nonzero; lia).
  pose proof (Qnat_pos b Hb) as Hq.
  assert (Qnat b = inject_Z (2 ^ Z.of_nat k)) as EQb.
  { unfold Qnat. f_equal. subst b. by rewrite Nat2Z.inj_pow. }
  assert (¬ (Qnat b == 0)%Q) as Hnz
    by (intros E0; rewrite E0 in Hq; by apply Qlt_irrefl in Hq).
  assert (validationSeq n b
          = mkSeq (round64 (round64 (round64 (Qnat n / Qnat b) - 1) * Qnat b))
              (round64 (Qnat n - 1))) as ->.
  { unfold validationSeq, numBatchesOf, js_div. by rewrite Qnat_nonzero. }
  assert (round64 (Qnat n / Qnat b) == Qnat n / Qnat b)%Q as E1.
  { rewrite EQb. apply round64_dyadic; [lia|unfold safe in Hs; lia|].
    reflexivity. }
  assert (round64 (round64 (Qnat n / Qnat b) - 1)
          == inject_Z (Z.of_nat n - Z.of_nat b) / Qnat b)%Q as E2.
  { rewrite EQb. apply round64_dyadic; [lia|unfold safe in Hs; lia|].
    rewrite <- EQb, E1. unfold Zminus.
    rewrite inject_Z_plus, inject_Z_opp. unfold Qnat. by field. }
  rewrite (seq_range_ok _ _ (n - b) (n - 1)); [do 2 f_equal; lia| | |lia].
  - apply round64_nat; [eapply safe_le; [|exact Hs]; lia|].
    rewrite E2. unfold Qnat. rewrite Nat2Z.inj_sub by done. by field.
  - apply round64_nat; [eapply safe_le; [|exact Hs]; lia|].
    rewrite Qnat_sub by lia. reflexivity.
Qed.

(** A range that starts before the first position is not a range of whole
    positions inside a dimension. *)
Lemma seq_range_negative (sb se : Q) (dim : nat) :
  (sb < 0)%Q → seq_range (mkSeq sb se) dim = None.
Proof.
  intros Hneg. unfold seq_range. cbn [mkSeq seq_begin seq_end].
  destruct (Qint sb) as [zb|] eqn:Eb; [|done].
  apply Qint_inv in Eb. rewrite Eb in Hneg.
  change 0%Q with (inject_Z 0) in Hneg. rewrite <- Zlt_Qlt in Hneg.
  destruct (Qint se); [|done].
  by replace (0 <=? zb)%Z with false by (symmetry; apply Z.leb_gt; lia).
Qed.

Lemma keeps_ret {A} (a : A) : keeps_weights (R:=R) (ret a).
Proof. done. Qed.

Lemma keeps_lift {A} (r : result A) : keeps_weights (R:=R) (lift r).
Proof. done. Qed.

Lemma keeps_bind {A B} (m : M R A) (k : A → M R B) :
  keeps_weights (R:=R) m → (∀ a, keeps_weights (R:=R) (k a)) →
  keeps_weights (R:=R) (x <- m ;; k x).
Proof.
  intros Hm Hk s. unfold bind. specialize (Hm s).
  destruct (m s) as [[a|e] s1]; simpl in *; [|done].
  destruct (Hk a s1) as [-> ->]. done.
Qed.

Lemma keeps_state {A} (f : ann → M R A) :
  (∀ s0, keeps_weights (R:=R) (f s0)) → keeps_weights (R:=R) (λ s, f s s).
Proof. intros Hf s. apply Hf. Qed.

Lemma keeps_getSignal (i : nat) : keeps_weights (R:=R) (getSignal i).
Proof. done. Qed.

Lemma keeps_getWeight (i : nat) : keeps_weights (R:=R) (getWeight i).
Proof. done. Qed.

Lemma keeps_getLastSignal : keeps_weights (R:=R) getLastSignal.
Proof. done. Qed.

Lemma keeps_setSignal (i : nat) (v : arr) : keeps_weights (R:=R) (setSignal i v).
Proof. intros s. unfold setSignal. by destruct (signal s !! i). Qed.

Lemma keeps_forEach (idx : list nat) (body : nat → M R unit) :
  (∀ i, keeps_weights (R:=R) (body i)) → keeps_weights (R:=R) (forEach idx body).
Proof.
  intros Hb. induction idx as [|i idx IH]; simpl; [apply keeps_ret|].
  apply keeps_bind; [apply Hb|]. intros _. exact IH.
Qed.

Lemma keeps_forwardStep (i : nat) : keeps_weights (R:=R) (forwardStep i).
Proof.
  unfold forwardStep, scope, addBias.
  repeat (apply keeps_bind; [first [apply keeps_getSignal | apply keeps_lift
                                   | apply keeps_getWeight]|]; intros ?).
  apply keeps_setSignal.
Qed.

Lemma keeps_forwardPropagate (input : arr) :
  keeps_weights (R:=R) (forwardPropagate input).
Proof.
  unfold forwardPropagate. apply keeps_bind; [apply keeps_setSignal|].
  intros _. apply (keeps_state (λ s0, forEach (seq 0 (numLayers s0 - 1)) _)).
  intros s0. apply keeps_forEach, keeps_forwardStep.
Qed.

Lemma keeps_predict (input : arr) : keeps_weights (R:=R) (predict input).
Proof.
  unfold predict. apply keeps_bind; [apply keeps_forwardPropagate|].
  intros _. apply keeps_bind; [apply keeps_getLastSignal|].
  intros ?. apply keeps_ret.
Qed.

Lemma keeps_calculateError (out pred : arr) :
  keeps_weights (R:=R) (_calculateError out pred).
Proof.
  unfold _calculateError.
  repeat (apply keeps_bind; [apply keeps_lift|]; intros ?). apply keeps_ret.
Qed.

Lemma keeps_validate (input target : arr) (options : Options R) :
  keeps_weights (R:=R) (validate input target options).
Proof.
  unfold validate, scope.
  apply keeps_bind; [apply keeps_lift|]; intros ?.
  apply keeps_bind; [apply keeps_predict|]; intros ?.
  apply keeps_bind; [apply keeps_lift|]; intros ?.
  apply keeps_calculateError.
Qed.

(** [_calculateError] on operands of one shape. *)
Lemma calculateError_ok (out pred : arr) (s : ann) :
  dim0 out = dim0 pred → dim1 out = dim1 pred →
  ∃ e, _calculateError out pred s = (Ok e, s).
Proof.
  intros E0 E1. unfold _calculateError.
  erewrite bind_lift; [|by apply ewise_ok].
  erewrite bind_lift; [|by apply ewise_ok].
  by eexists.
Qed.

Lemma predict_ok (layers : list nat) (input : arr) (s : ann) :
  net_shape layers s → layers !! 0 = Some (dim1 input) →
  ∃ out s' n, predict input s = (Ok out, s') ∧
            net_shape layers s' ∧ weights s' = weights s ∧
            layers !! (length layers - 1) = Some n ∧
            dim0 out = dim0 input ∧ dim1 out = n.
Proof.
  intros Hn H0'.
  destruct (forwardPropagate_run layers input s Hn H0')
    as (s' & Hrun & Hnum & Hwt & _ & _ & (out & Hlast & Hout & _) & Hn' & Hsh).
  assert (0 < length layers) as HL by (by eapply lookup_lt_Some).
  destruct (Hsh (length layers - 1)) as (n & a & Hln & Ha & Ha0 & Ha1); [lia|].
  assert (a = out) as -> by congruence.
  exists out, s', n. unfold predict.
  erewrite bind_ok; [|exact Hrun].
  destruct (getLastSignal s') as [r s''] eqn:Eg.
  assert (s'' = s') as -> by (unfold getLastSignal in Eg; congruence).
  simpl in Hlast. subst r.
  erewrite bind_ok; [|exact Eg]. done.
Qed.

Lemma validate_ok (layers : list nat) (input target : arr)
    (options : Options R) (s : ann) (x y : arr) :
  net_shape layers s →
  at_rows (validationSeq (dim0 input) (batchSize options)) input = Ok x →
  at_rows (validationSeq (dim0 input) (batchSize options)) target = Ok y →
  layers !! 0 = Some (dim1 x) →
  layers !! (length layers - 1) = Some (dim1 y) →
  dim0 y = dim0 x →
  ∃ e s', validate input target options s = (Ok e, s') ∧
          net_shape layers s' ∧ weights s' = weights s.
Proof.
  intros Hn Hx Hy H0' Hl Hd.
  destruct (predict_ok layers x s Hn H0')
    as (out & s' & n & Hp & Hn' & Hw & Hln & Ho0 & Ho1).
  destruct (calculateError_ok out y s') as [e He]; [congruence|congruence|].
  exists e, s'. unfold validate, scope.
  erewrite bind_lift; [|exact Hx].
  erewrite bind_ok; [|exact Hp].
  erewrite bind_lift; [|exact Hy].
  done.
Qed.

Lemma chain_unique (s1 s2 : ann) :
  length (signal s1) = length (signal s2) →
  weights s1 = weights s2 →
  signal s1 !! 0 = signal s2 !! 0 →
  (∀ i, S i < length (signal s1) → layer_chain s1 i) →
  (∀ i, S i < length (signal s1) → layer_chain s2 i) →
  signal s1 = signal s2.
Proof.
  intros Hlen Hw H0' Hc1 Hc2.
  assert (∀ i, i < length (signal s1) → signal s1 !! i = signal s2 !! i)
    as Hall.
  { induction i as [|i IH]; intros Hi; [done|].
    destruct (Hc1 i Hi) as (a & w & b & y & Ha & Hw1 & Hb & Hy & Hn).
    destruct (Hc2 i Hi) as (a' & w' & b' & y' & Ha' & Hw1' & Hb' & Hy' & Hn').
    rewrite IH in Ha by lia. rewrite Hw in Hw1.
    assert (a' = a) as -> by congruence.
    assert (w' = w) as -> by congruence.
    unfold addBias, lift in Hb, Hb'. simpl in Hb, Hb'.
    assert (b' = b) as -> by congruence.
    assert (y' = y) as -> by congruence.
    by rewrite Hn, Hn'. }
  apply list_eq. intros i.
  destruct (decide (i < length (signal s1))) as [Hi|Hi]; [by apply Hall|].
  rewrite !lookup_ge_None_2; [done|lia|lia].
Qed.

Lemma forwardPropagate_same (layers : list nat) (input : arr) (s1 s2 : ann) :
  same_weights layers s1 s2 → layers !! 0 = Some (dim1 input) →
  ∃ s', forwardPropagate input s1 = (Ok tt, s') ∧
        forwardPropagate input s2 = (Ok tt, s') ∧
        net_shape layers s' ∧ weights s' = weights s1 ∧
        (∀ i, i < length layers → signal_shape layers (dim0 input) s' i).
Proof.
  intros (Hn1 & Hn2 & Hw) H0'.
  destruct (forwardPropagate_run layers input s1 Hn1 H0')
    as (s1' & Hr1 & Hnum1 & Hw1 & Hs01 & Hc1 & _ & Hn1' & Hsh1).
  destruct (forwardPropagate_run layers input s2 Hn2 H0')
    as (s2' & Hr2 & Hnum2 & Hw2 & Hs02 & Hc2 & _ & Hn2' & Hsh2).
  assert (s2' = s1') as ->.
  { pose proof Hn1' as (Ha1 & Hb1 & _). pose proof Hn2' as (Ha2 & Hb2 & _).
    destruct s1' as [nl1 sg1 ws1], s2' as [nl2 sg2 ws2]. simpl in *.
    f_equal; [congruence| |congruence].
    symmetry.
    apply (chain_unique (mkANN nl1 sg1 ws1) (mkANN nl2 sg2 ws2)); simpl;
      try congruence.
    - intros i Hi. apply Hc1. lia.
    - intros i Hi. apply Hc2. lia. }
  exists s1'. done.
Qed.

Lemma trainBatch_same (layers : list nat) (options : Options R)
    (input target input' target' : arr) (j : nat) (s1 s2 : ann) :
  same_weights layers s1 s2 → Forall (λ n, 1 ≤ n) layers →
  batch_agrees layers (batchSize options) input target input' target' j →
  ∃ s', trainBatch input target options j s1 = (Ok tt, s') ∧
        trainBatch input' target' options j s2 = (Ok tt, s') ∧
        net_shape layers s'.
Proof.
  intros Hsame Hpos (x & y & Hx & Hx' & Hy & Hy' & H0' & Hl & Hd).
  destruct (forwardPropagate_same layers x s1 s2 Hsame H0')
    as (s' & Hf1 & Hf2 & Hn' & Hw' & Hsh).
  destruct (backPropagate_run layers y (alpha options) s')
    as (s'' & out & err0 & Hb & _ & _ & _ & Hn'' & _); try done.
  { intros i Hi. rewrite Hd. by apply Hsh. }
  exists s''. unfold trainBatch, scope.
  erewrite !bind_lift by done.
  erewrite !bind_ok by done. done.
Qed.

Lemma trainBatches_same (layers : list nat) (options : Options R)
    (input target input' target' : arr) (idx : list nat) (s1 s2 : ann) :
  same_weights layers s1 s2 → Forall (λ n, 1 ≤ n) layers →
  (∀ j, j ∈ idx →
     batch_agrees layers (batchSize options) input target input' target' j) →
  ∃ s1' s2',
    forEach idx (trainBatch input target options) s1 = (Ok tt, s1') ∧
    forEach idx (trainBatch input' target' options) s2 = (Ok tt, s2') ∧
    same_weights layers s1' s2'.
Proof.
  intros Hsame Hpos. revert s1 s2 Hsame.
  induction idx as [|j idx IH]; intros s1 s2 Hsame Hag.
  - exists s1, s2. done.
  - destruct (trainBatch_same layers options input target input' target' j
                s1 s2) as (s' & H1' & H2' & Hn'); try done.
    { apply Hag. left. }
    destruct (IH s' s') as (s1' & s2' & Hr1 & Hr2 & Hs'); [done| |].
    { intros j' Hj'. apply Hag. by right. }
    exists s1', s2'. simpl. erewrite !bind_ok by done. done.
Qed.

Lemma epoch_same (layers : list nat) (options : Options R)
    (input target input' target' : arr) (s1 s2 : ann) :
  same_weights layers s1 s2 → Forall (λ n, 1 ≤ n) layers →
  dim0 input' = dim0 input →
  trainLoopEnds (dim0 input) (batchSize options) = true →
  (∀ j, j ∈ trainIndices (dim0 input) (batchSize options) →
     batch_agrees layers (batchSize options) input target input' target' j) →
  validation_ready layers (batchSize options) input target →
  validation_ready layers (batchSize options) input' target' →
  ∃ e1 e2 s1' s2',
    epoch input target options s1 = (Ok e1, s1') ∧
    epoch input' target' options s2 = (Ok e2, s2') ∧
    same_weights layers s1' s2'.
Proof.
  intros Hsame Hpos Hdim Hends Hag (x & y & Hx & Hy & H0' & Hl & Hd)
    (x' & y' & Hx' & Hy' & H0'' & Hl' & Hd').
  destruct (trainBatches_same layers options input target input' target'
              (trainIndices (dim0 input) (batchSize options)) s1 s2)
    as (t1 & t2 & Hr1 & Hr2 & Ht1 & Ht2 & Htw); try done.
  destruct (validate_ok layers input target options t1 x y)
    as (e1 & s1' & Hv1 & Hn1 & Hw1); try done.
  destruct (validate_ok layers input' target' options t2 x' y')
    as (e2 & s2' & Hv2 & Hn2 & Hw2); try done.
  exists e1, e2, s1', s2'. unfold epoch. rewrite Hdim, Hends.
  erewrite !bind_ok by done.
  split; [done|]. split; [done|]. split; [done|]. split; [done|]. congruence.
Qed.

Lemma runEpochs_same (layers : list nat) (options : Options R)
    (input target input' target' : arr) (k : nat) (s1 s2 : ann) :
  same_weights layers s1 s2 → Forall (λ n, 1 ≤ n) layers →
  dim0 input' = dim0 input →
  trainLoopEnds (dim0 input) (batchSize options) = true →
  (∀ j, j ∈ trainIndices (dim0 input) (batchSize options) →
     batch_agrees layers (batchSize options) input target input' target' j) →
  validation_ready layers (batchSize options) input target →
  validation_ready layers (batchSize options) input' target' →
  ∃ s1' s2',
    runEpochs input target options k s1 = (Ok tt, s1') ∧
    runEpochs input' target' options k s2 = (Ok tt, s2') ∧
    same_weights layers s1' s2'.
Proof.
  intros Hsame Hpos Hdim Hends Hag Hv Hv'. revert s1 s2 Hsame.
  induction k as [|k IH]; intros s1 s2 Hsame.
  - exists s1, s2. done.
  - destruct (epoch_same layers options input target input' target' s1 s2)
      as (e1 & e2 & t1 & t2 & He1 & He2 & Ht); try done.
    destruct (IH t1 t2 Ht) as (s1' & s2' & Hr1 & Hr2 & Hs').
    exists s1', s2'. simpl. erewrite !bind_ok by done. done.
Qed.

(** The network a call of [train] leaves behind is the network after some
    number of epochs, at most [maxEpochs]. *)
Lemma train_runs_epochs (input target : arr) (options : Options R) (s : ann) :
  ∃ k, k ≤ maxEpochs options ∧
       snd (train input target options s)
       = snd (runEpochs input target options k s).
Proof.
  unfold train. generalize (rconst 0%Q : R) as err. revert s.
  induction (maxEpochs options) as [|r IH]; intros s err.
  - exists 0. done.
  - destruct (epoch input target options s) as [[e|x] s1] eqn:E.
    + destruct (rltb e (maxError options)) eqn:Ec.
      * exists 1. split; [lia|]. simpl. unfold bind. by rewrite E, Ec.
      * destruct (IH s1 e) as (k & Hk & Hs). exists (S k). split; [lia|].
        simpl. unfold bind. rewrite E, Ec. exact Hs.
    + exists 1. split; [lia|]. simpl. unfold bind. by rewrite E.
Qed.

Lemma take_drop_agree {A} (l l' : list A) (a b t : nat) :
  a + b ≤ t → take t l = take t l' →
  take b (drop a l) = take b (drop a l').
Proof.
  intros Hle Ht. rewrite !take_drop_commute.
  replace (take (a + b) l) with (take (a + b) (take t l))
    by (rewrite take_take; f_equal; lia).
  replace (take (a + b) l') with (take (a + b) (take t l'))
    by (rewrite take_take; f_equal; lia).
  by rewrite Ht.
Qed.

(** A range of whole rows inside the array selects those rows. *)
Lemma at_rows_range (s : Seq) (a : arr) (p n : nat) :
  seq_range s (dim0 a) = Some (p, n) →
  at_rows s a = Ok (mkArr n (dim1 a) (take n (drop p (rows a)))).
Proof. intros E. unfold at_rows. by rewrite E. Qed.

Lemma batch_rows (b j : nat) (a : arr) :
  0 < b → safe (dim0 a) → j * b + b ≤ dim0 a →
  at_rows (batchSeq b j) a
  = Ok (mkArr b (dim1 a) (take b (drop (j * b) (rows a)))).
Proof. intros Hb Hs Hle. apply at_rows_range. by apply batch_range. Qed.

Lemma validation_rows (n b : nat) (a : arr) :
  0 < b → b ≤ n → n `mod` b = 0 → safe n → dim0 a = n →
  at_rows (validationSeq n b) a
  = Ok (mkArr b (dim1 a) (take b (drop (n - b) (rows a)))).
Proof.
  intros Hb Hle Hmod Hs Hd. apply at_rows_range. rewrite Hd.
  by apply validation_range.
Qed.

(** C4: with 100 samples and batches of 25, every epoch runs the three
    training batches [j = 0, 1, 2] on rows [0 .. 74] and validates on rows
    [75 .. 99]. Two training sets that agree on rows [0 .. 74] (whatever
    their rows [75 .. 99], so in particular a permutation of them) leave
    the same weight matrices after any number [k] of epochs, and both runs
    complete. *)
Theorem validation_rows_never_train (layers : list nat)
    (options : Options R) (input target input' target' : arr) (s : ann)
    (k : nat) :
  net_shape layers s → Forall (λ n, 1 ≤ n) layers →
  batchSize options = 25 →
  dim0 input = 100 → dim0 target = 100 →
  dim0 input' = 100 → dim0 target' = 100 →
  layers !! 0 = Some (dim1 input) →
  layers !! (length layers - 1) = Some (dim1 target) →
  dim1 input' = dim1 input → dim1 target' = dim1 target →
  take 75 (rows input') = take 75 (rows input) →
  take 75 (rows target') = take 75 (rows target) →
  trainIndices 100 25 = [0; 1; 2] ∧
  (∀ j, j ∈ trainIndices 100 25 →
     seq_range (batchSeq 25 j) 100 = Some (j * 25, 25) ∧ j * 25 + 25 ≤ 75) ∧
  seq_range (validationSeq 100 25) 100 = Some (75, 25) ∧
  ∃ s1 s2,
    runEpochs input target options k s = (Ok tt, s1) ∧
    runEpochs input' target' options k s = (Ok tt, s2) ∧
    weights s1 = weights s2.
Proof.
  intros Hn Hpos Hb Hi0 Ht0 Hi0' Ht0' Hl0 Hll Hi1 Ht1 Hri Hrt.
  assert (trainCount 100 25 = ([0; 1; 2], true)) as Hcount
    by (vm_compute; reflexivity).
  assert (trainLoopEnds (dim0 input) (batchSize options) = true) as Hends
    by (rewrite Hi0, Hb; unfold trainLoopEnds; by rewrite Hcount).
  assert (∀ j, j ∈ trainIndices 100 25 → j * 25 + 25 ≤ 75) as Hj.
  { intros j. unfold trainIndices. rewrite Hcount. simpl. intros Hin.
    repeat (apply elem_of_cons in Hin as [->|Hin]; [lia|]).
    apply elem_of_nil in Hin. destruct Hin. }
  split; [unfold trainIndices; by rewrite Hcount|].
  clear Hcount.
  assert (safe 100) as Hsafe by (vm_compute; reflexivity).
  split.
  { intros j Hin. specialize (Hj j Hin). split; [|done].
    apply batch_range; [lia|done|lia]. }
  split.
  { by apply (validation_range 100 25); [lia|lia| |]. }
  assert (∀ j (a : arr), dim0 a = 100 → j * 25 + 25 ≤ 75 →
            at_rows (batchSeq 25 j) a
            = Ok (mkArr 25 (dim1 a) (take 25 (drop (j * 25) (rows a)))))
    as Hbr.
  { intros j a Ha Hle. apply batch_rows; [lia|by rewrite Ha|lia]. }
  assert (∀ a : arr, dim0 a = 100 →
            at_rows (validationSeq 100 25) a
            = Ok (mkArr 25 (dim1 a) (take 25 (drop (100 - 25) (rows a)))))
    as Hvr.
  { intros a Ha. by apply validation_rows; [lia|lia| | |]. }
  assert (∀ j, j ∈ trainIndices (dim0 input) (batchSize options) →
            batch_agrees layers (batchSize options) input target
              input' target' j) as Hag.
  { rewrite Hi0, Hb. intros j Hin. specialize (Hj j Hin).
    eexists _, _.
    split; [by apply Hbr|].
    split; [rewrite Hbr by done;
            by rewrite Hi1, (take_drop_agree _ _ _ _ 75 Hj Hri)|].
    split; [by apply Hbr|].
    split; [rewrite Hbr by done;
            by rewrite Ht1, (take_drop_agree _ _ _ _ 75 Hj Hrt)|].
    done. }
  assert (validation_ready layers (batchSize options) input target) as Hv.
  { rewrite Hb. unfold validation_ready. rewrite Hi0. eexists _, _.
    split; [by apply Hvr|]. split; [by apply Hvr|]. done. }
  assert (validation_ready layers (batchSize options) input' target') as Hv'.
  { rewrite Hb. unfold validation_ready. rewrite Hi0'. eexists _, _.
    split; [by apply Hvr|].
    split; [by apply Hvr|]. simpl. split; [congruence|].
    split; [congruence|done]. }
  destruct (runEpochs_same layers options input target input' target' k s s)
    as (s1 & s2 & Hr1 & Hr2 & _ & _ & Hw); try done; [congruence|].
  by exists s1, s2.
Qed.

Lemma whole_rows (a : arr) (n : nat) :
  wf_array a → dim0 a = n →
  mkArr n (dim1 a) (take n (drop (n - n) (rows a))) = a.
Proof.
  intros [Hl _] <-. rewrite Nat.sub_diag, drop_0, take_ge by lia.
  by destruct a.
Qed.

(** With [batchSize >= numSamples] an epoch trains on no batch. *)
Lemma keeps_epoch_untrained (input target : arr) (options : Options R) :
  trainIndices (dim0 input) (batchSize options) = [] →
  keeps_weights (R:=R) (epoch input target options).
Proof.
  intros Hidx. unfold epoch. rewrite Hidx. simpl.
  apply keeps_bind; [apply keeps_ret|]. intros _.
  destruct (trainLoopEnds (dim0 input) (batchSize options));
    [apply keeps_validate|apply keeps_lift].
Qed.

(** C7, as amended: when [batchSize >= numSamples] the batch loop of an
    epoch ends without an iteration and the epoch leaves the weights as
    they were. When [batchSize = numSamples] the validation range is the
    whole input, rows [0 .. numSamples - 1], and the epoch completes
    without an error. When [batchSize > numSamples] the validation range
    starts at a negative number, before the first row, and the rows
    validated on are the backend's answer to that range. *)
Theorem degenerate_batch_epoch (layers : list nat) (options : Options R)
    (input target : arr) (s : ann) :
  net_shape layers s → wf_array input → wf_array target →
  0 < dim0 input → safe (dim0 input) → dim0 target = dim0 input →
  layers !! 0 = Some (dim1 input) →
  layers !! (length layers - 1) = Some (dim1 target) →
  dim0 input ≤ batchSize options →
  trainIndices (dim0 input) (batchSize options) = [] ∧
  trainLoopEnds (dim0 input) (batchSize options) = true ∧
  weights (snd (epoch input target options s)) = weights s ∧
  (batchSize options = dim0 input →
   seq_range (validationSeq (dim0 input) (batchSize options)) (dim0 input)
   = Some (0, dim0 input) ∧
   at_rows (validationSeq (dim0 input) (batchSize options)) input = Ok input ∧
   at_rows (validationSeq (dim0 input) (batchSize options)) target = Ok target ∧
   ∃ e s', epoch input target options s = (Ok e, s') ∧
           weights s' = weights s) ∧
  (dim0 input < batchSize options → safe (batchSize options) →
   (∃ sb se, validationSeq (dim0 input) (batchSize options) = mkSeq sb se ∧
             (sb < 0)%Q) ∧
   seq_range (validationSeq (dim0 input) (batchSize options)) (dim0 input)
   = None ∧
   at_rows (validationSeq (dim0 input) (batchSize options)) input
   = seq_invalid (validationSeq (dim0 input) (batchSize options)) input).
Proof.
  intros Hn Hwi Hwt Hpos Hsafe Hd Hl0 Hll Hle.
  pose proof (trainCount_oversized (dim0 input) (batchSize options)
                ltac:(lia) Hle) as Hcount.
  assert (trainIndices (dim0 input) (batchSize options) = []) as Hidx
    by (unfold trainIndices; by rewrite Hcount).
  assert (trainLoopEnds (dim0 input) (batchSize options) = true) as Hends
    by (unfold trainLoopEnds; by rewrite Hcount).
  clear Hcount.
  split; [exact Hidx|]. split; [exact Hends|]. split.
  { by apply keeps_epoch_untrained. }
  split; cycle 1.
  { intros Hlt Hsb.
    destruct (validationSeq_oversized (dim0 input) (batchSize options))
      as (sb & se & Ev & Hneg); [done|done|done|].
    split; [by exists sb, se|]. unfold at_rows. rewrite Ev.
    by rewrite seq_range_negative. }
  intros Hb. rewrite Hb in *.
  assert (dim0 input `mod` dim0 input = 0) as Hmod
    by (apply Nat.Div0.mod_same).
  assert (at_rows (validationSeq (dim0 input) (dim0 input)) input = Ok input)
    as Hvi.
  { rewrite (validation_rows (dim0 input) (dim0 input)) by (done || lia).
    by rewrite whole_rows. }
  assert (at_rows (validationSeq (dim0 input) (dim0 input)) target = Ok target)
    as Hvt.
  { rewrite (validation_rows (dim0 input) (dim0 input)) by (done || lia).
    by rewrite whole_rows. }
  split.
  { rewrite validation_range by (done || lia). by rewrite Nat.sub_diag. }
  split; [exact Hvi|]. split; [exact Hvt|].
  destruct (validate_ok layers input target options s input target)
    as (e & s' & Hv & _ & Hw); try done; try (by rewrite Hb).
  exists e, s'. split; [|done].
  unfold epoch. rewrite Hb, Hidx, Hends. simpl.
  unfold bind, ret. exact Hv.
Qed.

(** C3: for an input of shape [(batch, layerSize[0])], [forwardPropagate]
    returns with [Signal[0]] the input and, for every [i] from [0] to
    [L - 2], [Signal[i+1] = sigmoid(matmul(addBias(Signal[i]), Weight[i]))];
    [Signal[L-1]] is the network's output on the input, and the weights
    are unchanged. *)
Theorem forwardPropagate_layers (layers : list nat) (input : arr) (s : ann) :
  net_shape layers s → layers !! 0 = Some (dim1 input) →
  ∃ s', forwardPropagate input s = (Ok tt, s') ∧
        weights s' = weights s ∧
        signal s' !! 0 = Some input ∧
        (∀ i, i < length layers - 1 → layer_chain s' i) ∧
        ∃ out, signal s' !! (length layers - 1) = Some out ∧
               feedForward (weights s) input = Ok out.
Proof.
  intros Hn H0'.
  destruct (forwardPropagate_run layers input s Hn H0')
    as (s' & Hrun & _ & Hw & Hs0 & Hc & (out & _ & Hout & Hff) & _).
  exists s'. do 4 (split; [done|]). exists out. by rewrite <- Hw.
Qed.

(** C1: after a forward pass, [backPropagate target alpha] returns and, for
    every layer index [i] from [L - 2] down to [0], has replaced [Weight[i]]
    by [Weight[i] + transpose(matmul(delta, addBias(Signal[i])) * alpha * -1
    / m)] with [delta = transpose(deriv(outVec) * err)],
    [deriv(out) = (1 - out) * out], [outVec = Signal[i+1]], [err] the error
    propagated to that layer and [m] the row count of [target] (the factor
    [-1] is the backend's negation); the signals and the number of weight
    matrices are unchanged. *)
Theorem backPropagate_updates (layers : list nat) (input target : arr)
    (alpha : R) (s0 s : ann) :
  net_shape layers s0 → Forall (λ n, 1 ≤ n) layers →
  layers !! 0 = Some (dim1 input) →
  forwardPropagate input s0 = (Ok tt, s) →
  dim0 target = dim0 input →
  layers !! (length layers - 1) = Some (dim1 target) →
  ∃ s' out err0,
    backPropagate target alpha s = (Ok tt, s') ∧
    signal s' = signal s ∧
    length (weights s') = length (weights s) ∧
    signal s !! (length layers - 1) = Some out ∧
    sub out target = Ok err0 ∧
    ∀ i, i < length layers - 1 →
      weight_updated s s' (length layers - 1) err0 alpha (dim0 target) i.
Proof.
  intros Hn Hpos H0' Hf Hd Hl.
  destruct (forwardPropagate_run layers input s0 Hn H0')
    as (s1 & Hrun & _ & _ & _ & _ & _ & Hn1 & Hsh).
  assert (s1 = s) as -> by congruence.
  destruct (backPropagate_run layers target alpha s)
    as (s' & out & err0 & Hb & _ & Hsig & Hlen & _ & Hout & Hsub & Hupd);
    try done.
  { intros i Hi. rewrite Hd. by apply Hsh. }
  exists s', out, err0. done.
Qed.

(** C2, as amended: in an iteration of [backPropagate]'s loop for layer
    [i], the error handed to the earlier layer is
    [matmul(transpose(delta), transpose(Weight[i]))] (the backend's
    [matMulTT], both operands transposed) with [Weight[i]] as it is after
    the in-place update of that iteration; then column 0 is dropped and
    columns [1 .. layerSize[i]] are kept, so that the error has the shape
    of [Signal[i]]. *)
Theorem backwardStep_propagates (s : ann) (alpha : R) (mm i : nat)
    (si w outVec err : arr) :
  signal s !! i = Some si → weights s !! i = Some w →
  1 ≤ dim1 si → dim0 w = dim1 si + 1 →
  dim0 outVec = dim0 si → dim1 outVec = dim1 w →
  dim0 err = dim0 si → dim1 err = dim1 w →
  ∃ s' w' delta e1 e',
    backwardStep alpha mm i outVec err s = (Ok (si, e'), s') ∧
    spec_update w outVec err si alpha mm = Ok w' ∧
    weights s' !! i = Some w' ∧
    spec_delta outVec err = Ok delta ∧
    matMulTT delta w' = Ok e1 ∧
    matMul (transpose delta) (transpose w') = Ok e1 ∧
    dim1 e1 = dim1 si + 1 ∧
    rows e' = map (λ r, take (dim1 si) (drop 1 r)) (rows e1) ∧
    dim0 e' = dim0 si ∧ dim1 e' = dim1 si.
Proof.
  intros Hsi Hw Hpos Hw0 Ho0 Ho1 He0 He1.
  destruct (backwardStep_ok s alpha mm (dim0 si) i (dim1 si) (dim1 w)
              si w outVec err)
    as (w' & delta & e1 & e' & Hupd & _ & _ & Hdelta & Hmm & _ & Hd1 & He'
        & _ & Hstep); try done.
  eexists _, w', delta, e1, e'. split; [exact Hstep|].
  split; [done|]. split.
  { simpl. apply list_lookup_insert_eq. by eapply lookup_lt_Some. }
  split; [done|]. split; [exact Hmm|]. split; [done|]. split; [done|].
  by subst e'.
Qed.

Lemma ewise_mismatch f (a b : arr) :
  dim0 a ≠ dim0 b ∨ dim1 a ≠ dim1 b → ewise f a b = Err ShapeError.
Proof.
  intros Hne. unfold ewise.
  destruct (Nat.eqb_spec (dim0 a) (dim0 b)); [|done].
  destruct (Nat.eqb_spec (dim1 a) (dim1 b)); [|done].
  by destruct Hne.
Qed.

Lemma matMul_mismatch (a b : arr) :
  dim1 a ≠ dim0 b → matMul a b = Err ShapeError.
Proof.
  intros Hne. unfold matMul. by destruct (Nat.eqb_spec (dim1 a) (dim0 b)).
Qed.

Lemma bind_throws {A B} (m : M R A) (k : A → M R B) (s s' : ann) (e : error) :
  m s = (Err e, s') → (x <- m ;; k x) s = (Err e, s').
Proof. intros E. unfold bind. by rewrite E. Qed.

(** X1: on a network of the given layer sizes, [predict] returns for an
    input with [layerSize[0]] columns the output of the layers applied in
    turn to the input, of shape [(batch, layerSize[L-1])]; it is the array
    then held by [Signal[L-1]], and the weights are as before. *)
Theorem predict_output (layers : list nat) (input : arr) (s : ann) :
  net_shape layers s → layers !! 0 = Some (dim1 input) →
  ∃ out s' n,
    predict input s = (Ok out, s') ∧
    feedForward (weights s) input = Ok out ∧
    signal s' !! (length layers - 1) = Some out ∧
    layers !! (length layers - 1) = Some n ∧
    dim0 out = dim0 input ∧ dim1 out = n ∧
    weights s' = weights s ∧ numLayers s' = numLayers s.
Proof.
  intros Hn H0'.
  destruct (forwardPropagate_run layers input s Hn H0')
    as (s' & Hrun & Hnum & Hwt & _ & _ & (out & Hlast & Hout & Hff) & Hn' & Hsh).
  assert (0 < length layers) as HL by (by eapply lookup_lt_Some).
  destruct (Hsh (length layers - 1)) as (n & a & Hln & Ha & Ha0 & Ha1); [lia|].
  assert (a = out) as -> by congruence.
  exists out, s', n. unfold predict.
  erewrite bind_ok; [|exact Hrun].
  destruct (getLastSignal s') as [r s''] eqn:Eg.
  assert (s'' = s') as -> by (unfold getLastSignal in Eg; congruence).
  simpl in Hlast. subst r.
  erewrite bind_ok; [|exact Eg].
  split; [done|]. split; [by rewrite <- Hwt|]. done.
Qed.

(** X2: a second [forwardPropagate] of the same input changes nothing:
    the network after the first call is a fixed point, and [predict]
    returns the same output again. *)
Theorem forwardPropagate_idempotent (layers : list nat) (input : arr)
    (s s' : ann) :
  net_shape layers s → layers !! 0 = Some (dim1 input) →
  forwardPropagate input s = (Ok tt, s') →
  forwardPropagate input s' = (Ok tt, s') ∧
  fst (predict input s') = fst (predict input s).
Proof.
  intros Hn H0' Hrun.
  destruct (forwardPropagate_run layers input s Hn H0')
    as (s1 & Hrun1 & _ & Hw1 & _ & _ & _ & Hn1 & _).
  assert (s1 = s') as -> by congruence.
  destruct (forwardPropagate_same layers input s s')
    as (s2 & Hf1 & Hf2 & _); [by split; [|split]|done|].
  assert (s2 = s') as -> by congruence.
  split; [done|]. unfold predict, bind. by rewrite Hf1, Hf2.
Qed.

(** X3: what [predict] returns and leaves behind depends on the weights
    and the input only, not on the signals left by earlier calls. *)
Theorem predict_ignores_signals (layers : list nat) (input : arr)
    (s1 s2 : ann) :
  net_shape layers s1 → net_shape layers s2 → weights s1 = weights s2 →
  layers !! 0 = Some (dim1 input) →
  predict input s1 = predict input s2.
Proof.
  intros Hn1 Hn2 Hw H0'.
  destruct (forwardPropagate_same layers input s1 s2)
    as (s' & Hf1 & Hf2 & _); [by split; [|split]|done|].
  unfold predict, bind. by rewrite Hf1, Hf2.
Qed.

(** X4: an input whose column count is not [layerSize[0]] makes
    [forwardPropagate] (and [predict]) throw a shape error in the first
    layer; [Signal[0]] is then already bound to that input, the weights
    and the other signals are as before. *)
Theorem forwardPropagate_input_mismatch (layers : list nat) (input : arr)
    (s : ann) (n0 : nat) :
  net_shape layers s → 2 ≤ length layers →
  layers !! 0 = Some n0 → dim1 input ≠ n0 →
  forwardPropagate input s
  = (Err ShapeError,
     mkANN (numLayers s) (<[0:=input]> (signal s)) (weights s)) ∧
  fst (predict input s) = Err ShapeError.
Proof.
  intros (Hnl & Hsl & Hwl & Hws) HL Hl0 Hne.
  destruct (lookup_lt_is_Some_2 (signal s) 0) as [old Hold]; [lia|].
  destruct (lookup_lt_is_Some_2 (weights s) 0) as [w Hw]; [lia|].
  destruct (lookup_lt_is_Some_2 layers 1) as [n1 Hl1]; [lia|].
  destruct (Hws 0 n0 n1 w Hl0 Hl1 Hw) as [Hw0 _].
  set (s0 := mkANN (numLayers s) (<[0:=input]> (signal s)) (weights s)).
  assert (setSignal 0 input s = (Ok tt, s0)) as Hset
    by (unfold setSignal; by rewrite Hold).
  assert (forwardPropagate input s = (Err ShapeError, s0)) as Hf.
  { unfold forwardPropagate. erewrite bind_ok; [|exact Hset].
    simpl numLayers. rewrite Hnl.
    assert (forwardStep 0 s0 = (Err ShapeError, s0)) as Hstep.
    { unfold forwardStep, scope.
      erewrite bind_ok;
        [|unfold getSignal; simpl; rewrite list_lookup_insert_eq by lia; done].
      unfold addBias. erewrite bind_lift; [|by apply join1_ok].
      erewrite bind_ok; [|unfold getWeight; simpl; by rewrite Hw].
      apply bind_throws. unfold lift.
      rewrite matMul_mismatch; [done|]. simpl. lia. }
    destruct (length layers) as [|[|L]] eqn:EL; [lia|lia|].
    change (seq 0 (S (S L) - 1)) with (0 :: seq 1 L).
    cbn [forEach]. by apply bind_throws. }
  split; [done|]. unfold predict, bind. by rewrite Hf.
Qed.

(** X5: a target whose shape is not that of [Signal[L-1]] makes
    [backPropagate] throw a shape error before any weight is touched: the
    network is unchanged. *)
Theorem backPropagate_target_mismatch (target : arr) (alpha : R) (s : ann)
    (k : nat) (out : arr) :
  numLayers s = S k → signal s !! k = Some out →
  dim0 out ≠ dim0 target ∨ dim1 out ≠ dim1 target →
  backPropagate target alpha s = (Err ShapeError, s).
Proof.
  intros Hnl Hout Hne. unfold backPropagate, scope.
  erewrite bind_ok; [|unfold getLastSignal; by rewrite Hnl, Hout].
  unfold bind, lift, sub. by rewrite ewise_mismatch.
Qed.

(** X8: the constructor accepts an empty layer list, but the network it
    gives is unusable: with no signal [forwardPropagate] and [predict]
    throw a type error, and with [numLayers = 0] so does [backPropagate];
    the network is left as it was. *)
Theorem empty_network_throws (draw : nat → R) (pos : nat)
    (range : option R) (input target : arr) (alpha : R) (s : ann) :
  constructor draw pos [] range = Ok (mkANN 0 [] [], pos) ∧
  (signal s = [] →
   forwardPropagate input s = (Err TypeError, s) ∧
   predict input s = (Err TypeError, s)) ∧
  (numLayers s = 0 → backPropagate target alpha s = (Err TypeError, s)).
Proof.
  split; [done|]. split.
  - intros Hs. unfold predict, forwardPropagate, bind, setSignal.
    by rewrite Hs.
  - intros Hn. unfold backPropagate, scope, bind, getLastSignal.
    by rewrite Hn.
Qed.

Lemma signals_bind {A B} (m : M R A) (k : A → M R B) :
  keeps_signals (R:=R) m → (∀ a, keeps_signals (R:=R) (k a)) →
  keeps_signals (R:=R) (x <- m ;; k x).
Proof.
  intros Hm Hk s. unfold bind. specialize (Hm s).
  destruct (m s) as [[a|e] s1]; simpl in *; [|done].
  destruct (Hk a s1) as [-> ->]. done.
Qed.

Lemma signals_pure {A} (f : ann → result A) :
  keeps_signals (R:=R) (λ s, (f s, s)).
Proof. done. Qed.

Lemma signals_addAssignWeight (i : nat) (g : arr) :
  keeps_signals (R:=R) (addAssignWeight i g).
Proof.
  intros s. unfold addAssignWeight.
  destruct (weights s !! i) as [w|]; [|done]. by destruct (add w g).
Qed.

Lemma signals_backwardStep (alpha : R) (m i : nat) (outVec err : arr) :
  keeps_signals (R:=R) (backwardStep alpha m i outVec err).
Proof.
  unfold backwardStep, scope, addBias, deriv, getSignal, getWeight, lift, ret.
  repeat (apply signals_bind;
          [first [apply signals_addAssignWeight
                 | apply (signals_pure (λ _, _))
                 | apply (signals_pure (λ s, of_option (signal s !! _) _))
                 | apply (signals_pure (λ s, of_option (weights s !! _) _))]
          |]; intros ?).
  apply (signals_pure (λ _, _)).
Qed.

Lemma signals_backwardLoop (alpha : R) (m k : nat) (outVec err : arr) :
  keeps_signals (R:=R) (backwardLoop alpha m k outVec err).
Proof.
  revert outVec err. induction k as [|k IH]; intros outVec err; simpl.
  - apply (signals_pure (λ _, _)).
  - apply signals_bind; [apply signals_backwardStep|]. intros oe. apply IH.
Qed.

(** X6: [backPropagate] never changes [numLayers], the signals or the
    number of weight matrices, whether it returns or throws. *)
Theorem backPropagate_keeps_signals (target : arr) (alpha : R) (s : ann) :
  numLayers (snd (backPropagate target alpha s)) = numLayers s ∧
  signal (snd (backPropagate target alpha s)) = signal s ∧
  length (weights (snd (backPropagate target alpha s))) = length (weights s).
Proof.
  assert (keeps_signals (R:=R) (backPropagate target alpha)) as Hk.
  { unfold backPropagate, scope.
    apply signals_bind; [unfold getLastSignal; apply (signals_pure (λ s, _))|].
    intros outVec. apply signals_bind; [apply (signals_pure (λ _, _))|].
    intros err s0. apply signals_backwardLoop. }
  destruct (Hk s) as [Hn Hs]. split; [done|]. split; [done|].
  assert (∀ A (m : M R A),
            (∀ s0, length (weights (snd (m s0))) = length (weights s0)) →
            ∀ B (k : A → M R B),
              (∀ a s0, length (weights (snd (k a s0))) = length (weights s0)) →
              ∀ s0, length (weights (snd ((x <- m ;; k x) s0)))
                    = length (weights s0)) as Hbind.
  { intros A m Hm B k Hk' s0. unfold bind. specialize (Hm s0).
    destruct (m s0) as [[a|e] s1]; simpl in *; [|done].
    by rewrite Hk'. }
  assert (∀ i g s0, length (weights (snd (addAssignWeight i g s0)))
                    = length (weights s0)) as Hadd.
  { intros i g s0. unfold addAssignWeight.
    destruct (weights s0 !! i) as [w|]; [|done].
    destruct (add w g); simpl; [by rewrite length_insert|done]. }
  assert (∀ m i outVec err s0,
            length (weights (snd (backwardStep alpha m i outVec err s0)))
            = length (weights s0)) as Hstep.
  { intros m i outVec err s0. unfold backwardStep, scope.
    repeat (apply Hbind; [first [done | apply Hadd]|]; intros ? ?). done. }
  assert (∀ m k outVec err s0,
            length (weights (snd (backwardLoop alpha m k outVec err s0)))
            = length (weights s0)) as Hloop.
  { intros m k. induction k as [|k IH]; intros outVec err s0; simpl; [done|].
    apply Hbind; [apply Hstep|]. intros oe s1. apply IH. }
  unfold backPropagate, scope.
  apply Hbind; [done|]. intros outVec s0.
  apply Hbind; [done|]. intros err s1. apply Hloop.
Qed.

(** X7: [predict] and [forwardPropagate] never change the weights or
    [numLayers], and keep the number of signals, whether they return or
    throw. *)
Theorem predict_keeps_weights (input : arr) (s : ann) :
  weights (snd (predict input s)) = weights s ∧
  weights (snd (forwardPropagate input s)) = weights s ∧
  numLayers (snd (predict input s)) = numLayers s ∧
  length (signal (snd (forwardPropagate input s))) = length (signal s).
Proof.
  destruct (keeps_predict input s) as [Hn Hw].
  destruct (keeps_forwardPropagate input s) as [_ Hw'].
  split; [done|]. split; [done|]. split; [done|].
  assert (∀ A (m : M R A),
            (∀ s0, length (signal (snd (m s0))) = length (signal s0)) →
            ∀ B (k : A → M R B),
              (∀ a s0, length (signal (snd (k a s0))) = length (signal s0)) →
              ∀ s0, length (signal (snd ((x <- m ;; k x) s0)))
                    = length (signal s0)) as Hbind.
  { intros A m Hm B k Hk' s0. unfold bind. specialize (Hm s0).
    destruct (m s0) as [[a|e] s1]; simpl in *; [|done].
    by rewrite Hk'. }
  assert (∀ i (v : arr) (s0 : ann), length (signal (snd (setSignal i v s0)))
                    = length (signal s0)) as Hset.
  { intros i v s0. unfold setSignal.
    destruct (signal s0 !! i); simpl; [by rewrite length_insert|done]. }
  assert (∀ i (s0 : ann), length (signal (snd (forwardStep i s0)))
                  = length (signal s0)) as Hstep.
  { intros i s0. unfold forwardStep, scope.
    repeat (apply Hbind; [done|]; intros ? ?). apply Hset. }
  assert (∀ idx (s0 : ann), length (signal (snd (forEach idx forwardStep s0)))
                    = length (signal s0)) as Hloop.
  { induction idx as [|i idx IH]; intros s0; simpl; [done|].
    apply Hbind; [apply Hstep|]. intros _ s1. apply IH. }
  unfold forwardPropagate. apply Hbind; [apply Hset|].
  intros _ s0. apply Hloop.
Qed.

Lemma constructed_net_shape (draw : nat → R) (range : R) (layers : list nat)
    (net : ann) :
  constructed draw range layers (length layers) net → net_shape layers net.
Proof.
  intros (Hnl & Hsig & Hwl & Hws).
  split; [done|]. split; [by rewrite Hsig, length_replicate|].
  split; [lia|].
  intros i a b w Ha Hb Hw.
  assert (S i < length layers) as Hi by (by eapply lookup_lt_Some).
  destruct (Hws i a b) as (w' & Hw' & p & ->); try done; [lia|].
  assert (w = subS (mulS (fst (randu draw p (a + 1) b)) range)
                (rdiv range (rconst 2%Q))) as -> by congruence.
  done.
Qed.

(** X9: a freshly constructed network has the shapes of its layer list,
    and [predict] on it returns for every input with [layerSize[0]] columns
    an output of shape [(batch, layerSize[L-1])]. *)
Theorem constructor_then_predict (draw : nat → R) (pos : nat)
    (layers : list nat) (range : option R) (input : arr) :
  layers !! 0 = Some (dim1 input) →
  ∃ net pos' out s' n,
    constructor draw pos layers range = Ok (net, pos') ∧
    net_shape layers net ∧
    predict input net = (Ok out, s') ∧
    layers !! (length layers - 1) = Some n ∧
    dim0 out = dim0 input ∧ dim1 out = n ∧
    weights s' = weights net.
Proof.
  intros H0'.
  destruct (constructor_spec draw pos layers range) as (net & pos' & Hc & Hcd).
  pose proof (constructed_net_shape _ _ _ _ Hcd) as Hn.
  destruct (predict_ok layers input net Hn H0')
    as (out & s' & n & Hp & _ & Hw & Hln & Ho0 & Ho1).
  by exists net, pos', out, s', n.
Qed.

Lemma epoch_ok (layers : list nat) (options : Options R)
    (input target : arr) (s : ann) :
  net_shape layers s → Forall (λ n, 1 ≤ n) layers →
  0 < batchSize options → batchSize options ≤ dim0 input →
  dim0 input `mod` batchSize options = 0 → safe (dim0 input) →
  dim0 target = dim0 input →
  layers !! 0 = Some (dim1 input) →
  layers !! (length layers - 1) = Some (dim1 target) →
  ∃ e s', epoch input target options s = (Ok e, s') ∧ net_shape layers s'.
Proof.
  intros Hn Hpos Hb Hle Hmod Hsafe Hd Hl0 Hll.
  assert (trainLoopEnds (dim0 input) (batchSize options) = true) as Hends.
  { unfold trainLoopEnds. by rewrite trainIndices_dividing. }
  assert (∀ a : arr, dim0 a = dim0 input →
            at_rows (validationSeq (dim0 input) (batchSize options)) a
            = Ok (mkArr (batchSize options) (dim1 a)
                    (take (batchSize options)
                       (drop (dim0 input - batchSize options) (rows a)))))
    as Hvr by (intros a Ha; by apply validation_rows).
  destruct (epoch_same layers options input target input target s s)
    as (e1 & e2 & s1' & s2' & He1 & _ & Hn' & _); try done.
  - intros j Hj. apply trainIndices_inside in Hj; [|done|done].
    eexists _, _.
    split; [by apply batch_rows|]. split; [by apply batch_rows|].
    split; [apply batch_rows; [done|by rewrite Hd|by rewrite Hd]|].
    split; [apply batch_rows; [done|by rewrite Hd|by rewrite Hd]|]. done.
  - eexists _, _.
    split; [by apply Hvr|]. split; [by apply Hvr|]. done.
  - eexists _, _.
    split; [by apply Hvr|]. split; [by apply Hvr|]. done.
  - by exists e1, s1'.
Qed.

(** X10: on a network of positive layer sizes, with a positive
    [batchSize] that divides [numSamples] and input and target of the
    network's column counts, [train] returns without an exception and
    leaves a network of the same shapes. *)
Theorem train_completes (layers : list nat) (options : Options R)
    (input target : arr) (s : ann) :
  net_shape layers s → Forall (λ n, 1 ≤ n) layers →
  0 < batchSize options → batchSize options ≤ dim0 input →
  dim0 input `mod` batchSize options = 0 → safe (dim0 input) →
  dim0 target = dim0 input →
  layers !! 0 = Some (dim1 input) →
  layers !! (length layers - 1) = Some (dim1 target) →
  ∃ e s', train input target options s = (Ok e, s') ∧ net_shape layers s'.
Proof.
  intros Hn Hpos Hb Hle Hmod Hsafe Hd Hl0 Hll. unfold train.
  generalize (rconst 0%Q : R) as err. revert s Hn.
  induction (maxEpochs options) as [|r IH]; intros s Hn err.
  - by exists err, s.
  - destruct (epoch_ok layers options input target s)
      as (e & s1 & He & Hn1); try done.
    simpl. erewrite bind_ok; [|exact He].
    destruct (rltb e (maxError options)); [by exists e, s1|]. by apply IH.
Qed.

Lemma trainLoop_returns (input target : arr) (options : Options R)
    (r : nat) (err e : R) (s s' : ann) :
  trainLoop input target options (S r) err s = (Ok e, s') ↔
  ∃ k sp, k < S r ∧
          epochs_unconverged input target options k s sp ∧
          epoch input target options sp = (Ok e, s') ∧
          (rltb e (maxError options) = true ∨ S k = S r).
Proof.
  revert err s. induction r as [|r IH]; intros err s.
  - simpl. unfold bind. split.
    + destruct (epoch input target options s) as [[e0|x] s1] eqn:E; [|done].
      intros Heq. exists 0, s. split; [lia|]. split; [constructor|].
      assert (e0 = e ∧ s1 = s') as [-> ->]
        by (destruct (rltb e0 (maxError options)); unfold ret in Heq;
            by simplify_eq).
      split; [done|by right].
    + intros (k & sp & Hk & Hu & He & _).
      assert (k = 0) as -> by lia. inversion Hu; subst. rewrite He.
      by destruct (rltb e (maxError options)).
  - change (trainLoop input target options (S (S r)) err s)
      with ((e0 <- epoch input target options ;;
             if rltb e0 (maxError options) then ret e0
             else trainLoop input target options (S r) e0) s).
    unfold bind at 1. split.
    + destruct (epoch input target options s) as [[e0|x] s1] eqn:E; [|done].
      destruct (rltb e0 (maxError options)) eqn:Ec.
      * intros [= <- <-]. exists 0, s. split; [lia|].
        split; [constructor|]. eauto.
      * intros Hl. apply IH in Hl as (k & sp & Hk & Hu & He & Hstop).
        exists (S k), sp. split; [lia|].
        split; [by econstructor|]. split; [done|].
        destruct Hstop as [?|?]; [by left|right; lia].
    + intros (k & sp & Hk & Hu & He & Hstop).
      inversion Hu as [|k' ? e0 s1 ? He0 Hc0 Hu']; subst.
      * rewrite He. destruct Hstop as [->|?]; [done|lia].
      * rewrite He0, Hc0. apply IH. exists k', sp. split; [lia|].
        split; [done|]. split; [done|].
        destruct Hstop as [?|?]; [by left|right; lia].
Qed.

Lemma trainLoop_throws (input target : arr) (options : Options R)
    (r : nat) (err : R) (x : error) (s s' : ann) :
  trainLoop input target options r err s = (Err x, s') ↔
  ∃ k sp, k < r ∧
          epochs_unconverged input target options k s sp ∧
          epoch input target options sp = (Err x, s').
Proof.
  revert err s. induction r as [|r IH]; intros err s.
  - simpl. split; [done|]. intros (k & _ & Hk & _). lia.
  - change (trainLoop input target options (S r) err s)
      with ((e0 <- epoch input target options ;;
             if rltb e0 (maxError options) then ret e0
             else trainLoop input target options r e0) s).
    unfold bind at 1. split.
    + destruct (epoch input target options s) as [[e0|x0] s1] eqn:E.
      * destruct (rltb e0 (maxError options)) eqn:Ec; [done|].
        intros Hl. apply IH in Hl as (k & sp & Hk & Hu & He).
        exists (S k), sp. split; [lia|]. split; [by econstructor|done].
      * intros [= <- <-]. exists 0, s. split; [lia|]. split; [constructor|done].
    + intros (k & sp & Hk & Hu & He).
      inversion Hu as [|k' ? e0 s1 ? He0 Hc0 Hu']; subst.
      * by rewrite He.
      * rewrite He0, Hc0. apply IH. exists k', sp. split; [lia|]. done.
Qed.

(** X11: with [maxEpochs > 0], [train] returns [e] exactly when some
    epoch [k + 1 <= maxEpochs] returns [e] after [k] epochs whose errors
    did not satisfy [err < maxError], and either [e < maxError] or that
    epoch is the last one allowed. *)
Theorem train_returns (input target : arr) (options : Options R)
    (e : R) (s s' : ann) :
  0 < maxEpochs options →
  train input target options s = (Ok e, s') ↔
  ∃ k sp, k < maxEpochs options ∧
          epochs_unconverged input target options k s sp ∧
          epoch input target options sp = (Ok e, s') ∧
          (rltb e (maxError options) = true ∨ S k = maxEpochs options).
Proof.
  intros Hm. unfold train.
  destruct (maxEpochs options) as [|r]; [lia|]. apply trainLoop_returns.
Qed.

(** X12: [train] throws exactly when an epoch throws after fewer than
    [maxEpochs] epochs that returned without converging; the exception and
    the network are those of that epoch. *)
Theorem train_throws (input target : arr) (options : Options R)
    (x : error) (s s' : ann) :
  train input target options s = (Err x, s') ↔
  ∃ k sp, k < maxEpochs options ∧
          epochs_unconverged input target options k s sp ∧
          epoch input target options sp = (Err x, s').
Proof. apply trainLoop_throws. Qed.

(** X13: for [0 < batchSize <= numSamples] the batch loop ends and every
    training batch is a whole range of rows inside the input. When
    [batchSize] divides [numSamples] the validation range is rows
    [numSamples - batchSize .. numSamples - 1], every row of the input is in
    a training batch or in the validation range, and no training batch
    reaches the validation range. *)
Theorem epoch_rows_partition (n b : nat) :
  0 < b → b ≤ n → safe n →
  trainLoopEnds n b = true ∧
  (∀ j, j ∈ trainIndices n b →
     seq_range (batchSeq b j) n = Some (j * b, b)) ∧
  (n `mod` b = 0 →
   seq_range (validationSeq n b) n = Some (n - b, b) ∧
   (∀ r, r < n →
      (∃ j, j ∈ trainIndices n b ∧ j * b ≤ r < j * b + b) ∨ n - b ≤ r) ∧
   (∀ j r, j ∈ trainIndices n b → j * b ≤ r < j * b + b → r < n - b)).
Proof.
  intros Hb Hle Hs. split; [|split].
  - by destruct (trainIndices_test n b 0 Hb Hs) as (q & _ & _ & ->).
  - intros j Hj. apply batch_range; [done|done|].
    by apply trainIndices_inside.
  - intros Hmod.
    pose proof (trainIndices_dividing n b Hb Hmod Hs) as Hcount.
    pose proof (Nat.div_mod n b ltac:(lia)) as Hdm. rewrite Hmod in Hdm.
    assert (∀ j, j ∈ trainIndices n b ↔ j < n / b - 1) as Hin.
    { intros j. unfold trainIndices. rewrite Hcount. simpl.
      rewrite elem_of_seq. lia. }
    clear Hcount.
    split; [by apply validation_range|]. split.
    + intros r Hr. destruct (decide (n - b ≤ r)) as [|Hlt]; [by right|left].
      exists (r / b).
      pose proof (Nat.div_mod r b ltac:(lia)) as Hdr.
      pose proof (Nat.mod_upper_bound r b ltac:(lia)) as Hub.
      split; [|nia]. apply Hin. nia.
    + intros j r Hj Hr. apply Hin in Hj. nia.
Qed.

(** X14: [deriv] never throws; it returns an array of the shape of its
    argument whose elements are [(1 - x) * x], and leaves the network as
    it was. *)
Theorem deriv_elements (out : arr) (s : ann) :
  ∃ d, deriv out s = (Ok d, s) ∧
       dim0 d = dim0 out ∧ dim1 d = dim1 out ∧
       ∀ i j, get d i j
              = (λ x, rmul (rsub (rconst 1%Q) x) x) <$> get out i j.
Proof.
  eexists. split.
  { unfold deriv, lift, mul. by rewrite ewise_ok. }
  split; [done|]. split; [done|].
  intros i j. unfold get. simpl.
  rewrite lookup_zip_with, list_lookup_fmap.
  destruct (rows out !! i) as [r|]; simpl; [|done].
  rewrite lookup_zip_with, list_lookup_fmap.
  by destruct (r !! j).
Qed.

(** X15: the column range [Seq(1, dims(1))] that [backPropagate] takes
    from the propagated error removes exactly the column [addBias] adds:
    applied to [addBias t] it gives [t] back. *)
Theorem addBias_drop_bias_column (t : arr) (s : ann) :
  wf_array t → 1 ≤ dim1 t →
  ∃ b, addBias t s = (Ok b, s) ∧
       at_cols (mkSeq 1 (Qnat (dim1 t))) b = Ok t.
Proof.
  intros [Hlen Hrows] Hpos. eexists. split.
  { unfold addBias, lift. fold (biased t). by rewrite addBias_rows. }
  rewrite (at_cols_ok _ _ _ 1 (dim1 t)); [|done|done|simpl; lia].
  simpl. replace (dim1 t - 1 + 1) with (dim1 t) by lia.
  destruct t as [d0 d1 rs]. simpl in *. do 2 f_equal.
  apply list_eq. intros i. rewrite list_lookup_fmap, lookup_zip_with.
  destruct (rs !! i) as [r|] eqn:Er.
  - rewrite lookup_replicate_2 by (apply lookup_lt_Some in Er; lia).
    simpl. rewrite drop_0. f_equal. apply take_ge.
    rewrite Forall_forall in Hrows. rewrite (Hrows r); [done|].
    by eapply list_elem_of_lookup_2.
  - by destruct (replicate d0 [rconst 1%Q] !! i).
Qed.

(** X16: with [batchSize >= numSamples], [train] never changes the
    weights or [numLayers], however many epochs it runs and whether it
    returns or throws. *)
Theorem train_oversized_batch_keeps_weights (input target : arr)
    (options : Options R) (s : ann) :
  0 < batchSize options → dim0 input ≤ batchSize options →
  weights (snd (train input target options s)) = weights s ∧
  numLayers (snd (train input target options s)) = numLayers s.
Proof.
  intros Hb Hle.
  assert (trainIndices (dim0 input) (batchSize options) = []) as Hidx.
  { unfold trainIndices. by rewrite trainCount_oversized. }
  assert (keeps_weights (R:=R) (train input target options)) as Hk.
  { unfold train. generalize (rconst 0%Q : R) as err.
    induction (maxEpochs options) as [|r IH]; intros err; simpl.
    - apply keeps_ret.
    - apply keeps_bind; [by apply keeps_epoch_untrained|].
      intros e. destruct (rltb e (maxError options)); [apply keeps_ret|].
      apply IH. }
  destruct (Hk s) as [Hn Hw]. done.
Qed.
(** A range of whole rows starts at a finite whole number. *)
Lemma seq_range_begin (s : Seq) (dim p c : nat) :
  seq_range s dim = Some (p, c) →
  ∃ sb, seq_begin s = Fin sb ∧ (sb == Qnat p)%Q.
Proof.
  unfold seq_range. destruct (seq_begin s) as [sb| |]; [|done|done].
  destruct (seq_end s) as [se| |]; [|done|done].
  destruct (Qint sb) as [zb|] eqn:Eb; [|done].
  destruct (Qint se) as [ze|]; [|done].
  destruct (0 <=? zb)%Z eqn:E0; [|done]. simpl.
  destruct ((zb <=? ze)%Z && (ze <? Z.of_nat dim)%Z); [|done].
  intros [= <- <-]. exists sb. split; [done|].
  apply Qint_inv in Eb. rewrite Eb. unfold Qnat.
  apply Z.leb_le in E0. by rewrite Z2Nat.id.
Qed.

(** If the validation range starts at [numSamples - batchSize] although
    [batchSize] does not divide [numSamples], the batch loop has run the
    batch that ends at the last multiple of [batchSize]. *)
Lemma last_batch_trained (n b : nat) :
  0 < b → b < n → n `mod` b ≠ 0 → safe n →
  seq_range (validationSeq n b) n = Some (n - b, b) →
  n / b - 1 ∈ trainIndices n b.
Proof.
  intros Hb Hlt Hmod Hs Hv.
  pose proof (Nat.div_mod n b ltac:(lia)) as Hdm.
  pose proof (Nat.mod_upper_bound n b ltac:(lia)) as Hub.
  assert (1 ≤ n / b) as Hf by (apply Nat.div_le_lower_bound; lia).
  assert (safe (n / b + 1)) as Hsf by (eapply safe_le; [|exact Hs]; nia).
  destruct (trainIndices_test n b (n / b - 1) Hb Hs) as (q & Eq & Hin & _).
  apply Hin.
  destruct (loopBound_between n b (n / b) (n / b + 1) Hb Hsf)
    as (q' & Eq' & Hlo & _); [nia|].
  assert (q' = q) as -> by congruence.
  apply seq_range_begin in Hv as (sb & Esb & Hsb).
  unfold validationSeq in Esb. cbn [seq_begin] in Esb.
  rewrite Eq in Esb. cbn [js_mul] in Esb. injection Esb as <-.
  apply Qnot_le_lt. intros Hle.
  assert (q == Qnat (n / b - 1))%Q as Eq1.
  { apply Qle_antisym; [done|]. unfold Qnat.
    by replace (Z.of_nat (n / b - 1)) with (Z.of_nat (n / b) - 1)%Z by lia. }
  assert (round64 (q * Qnat b) == Qnat ((n / b - 1) * b))%Q as E.
  { apply round64_nat; [eapply safe_le; [|exact Hs]; nia|].
    by rewrite Eq1, (Qnat_mul (n / b - 1) b). }
  rewrite E in Hsb. apply Qnat_eq in Hsb. nia.
Qed.

(** C8, as amended: [train] computes [numBatches] as the double nearest
    to [numSamples / batchSize]; the batch loop ends, having run for
    exactly the whole numbers [j] with [j < numBatches - 1], and the epoch
    then validates on the range from [(numBatches - 1) * batchSize] to
    [numSamples - 1], each operation rounded to a double. Consequently,
    when [batchSize < numSamples], [batchSize] does not divide
    [numSamples] and the computed start of that range is the whole number
    [numSamples - batchSize], the rows of the validation range from
    [numSamples - batchSize] up to the last multiple of [batchSize] have
    also been trained on, in the last training batch of the same epoch.
    The computed start is that whole number whenever [batchSize] is a
    power of two. *)
Theorem training_overlaps_validation (options : Options R)
    (input target : arr) :
  0 < batchSize options → safe (dim0 input) →
  numBatchesOf (dim0 input) (batchSize options)
  = Fin (round64 (Qnat (dim0 input) / Qnat (batchSize options))) ∧
  (∃ bound,
     js_sub (numBatchesOf (dim0 input) (batchSize options)) 1 = Fin bound ∧
     ∀ j, j ∈ trainIndices (dim0 input) (batchSize options)
          ↔ (Qnat j < bound)%Q) ∧
  epoch input target options
  = (forEach (trainIndices (dim0 input) (batchSize options))
       (trainBatch input target options) ;;
     validate input target options) ∧
  validationSeq (dim0 input) (batchSize options)
  = newSeq (js_mul (js_sub (numBatchesOf (dim0 input) (batchSize options)) 1)
              (Qnat (batchSize options)))
      (js_sub (Fin (Qnat (dim0 input))) 1) ∧
  (batchSize options < dim0 input →
   dim0 input `mod` batchSize options ≠ 0 →
   seq_range (validationSeq (dim0 input) (batchSize options)) (dim0 input)
   = Some (dim0 input - batchSize options, batchSize options) →
   ∃ j row,
     j ∈ trainIndices (dim0 input) (batchSize options) ∧
     at_rows (batchSeq (batchSize options) j) input
     = Ok (mkArr (batchSize options) (dim1 input)
             (take (batchSize options)
                (drop (j * batchSize options) (rows input)))) ∧
     at_rows (validationSeq (dim0 input) (batchSize options)) input
     = Ok (mkArr (batchSize options) (dim1 input)
             (take (batchSize options)
                (drop (dim0 input - batchSize options) (rows input)))) ∧
     j * batchSize options ≤ row < j * batchSize options + batchSize options ∧
     dim0 input - batchSize options ≤ row < dim0 input) ∧
  (∀ k, batchSize options = 2 ^ k → batchSize options ≤ dim0 input →
     seq_range (validationSeq (dim0 input) (batchSize options)) (dim0 input)
     = Some (dim0 input - batchSize options, batchSize options)).
Proof.
  intros Hb Hs.
  set (n := dim0 input) in *. set (b := batchSize options) in *.
  split.
  { unfold numBatchesOf, js_div. by rewrite Qnat_nonzero. }
  destruct (trainIndices_test n b 0 Hb Hs) as (q & Eq & _ & Hends).
  split.
  { exists q. split; [done|]. intros j.
    destruct (trainIndices_test n b j Hb Hs) as (q' & Eq' & Hin & _).
    assert (q' = q) as -> by congruence. done. }
  split.
  { unfold epoch. fold n b. by rewrite Hends. }
  split; [done|].
  split; [|intros k Ek Hle; by apply (validationSeq_power_of_two n b k)].
  intros Hlt Hmod Hv.
  pose proof (Nat.div_mod n b ltac:(lia)) as Hdm.
  pose proof (Nat.mod_upper_bound n b ltac:(lia)) as Hub.
  assert (1 ≤ n / b) as Hf by (apply Nat.div_le_lower_bound; lia).
  exists (n / b - 1), (n - b).
  split; [by apply last_batch_trained|].
  split; [apply batch_rows; [done|done|fold n; nia]|].
  split; [by apply at_rows_range|]. nia.
Qed.
Lemma countUp_unbounded (fuel j : nat) :
  countUp fuel j Infinity = (seq j fuel, false).
Proof.
  revert j. induction fuel as [|fuel IH]; intros j; [done|].
  simpl. by rewrite IH.
Qed.

(** With [batchSize = 0] and a non-empty input, [numBatches] is
    [Infinity] and the test of the batch loop never fails. *)
Lemma trainCount_zero_batch (n : nat) :
  0 < n → numBatchesOf n 0 = Infinity ∧ trainLoopEnds n 0 = false.
Proof.
  intros Hn.
  assert (numBatchesOf n 0 = Infinity) as E.
  { unfold numBatchesOf, js_div. change (Qeq_bool (Qnat 0) 0) with true.
    by rewrite Qnat_nonzero. }
  split; [done|]. unfold trainLoopEnds, trainCount. rewrite E. simpl js_sub.
  by rewrite countUp_unbounded.
Qed.

(** X17: with [batchSize = 0], a non-empty input and at least one epoch
    to run, [train] never returns a value: [numBatches] is [Infinity], the
    batch loop of the first epoch is left only by an exception, and the
    validation step is never reached. *)
Theorem train_zero_batch_never_returns (input target : arr)
    (options : Options R) (s : ann) :
  0 < dim0 input → batchSize options = 0 → 0 < maxEpochs options →
  numBatchesOf (dim0 input) (batchSize options) = Infinity ∧
  ∀ e s', train input target options s ≠ (Ok e, s').
Proof.
  intros Hn Hb He. rewrite Hb.
  destruct (trainCount_zero_batch (dim0 input) Hn) as [Einf Hends].
  split; [done|]. intros e s'. unfold train.
  destruct (maxEpochs options) as [|r]; [lia|]. simpl.
  unfold bind at 1. unfold epoch. rewrite Hb, Hends. unfold bind at 1.
  destruct (forEach (trainIndices (dim0 input) 0)
              (trainBatch input target options) s) as [[[]|x] s1]; done.
Qed.
End Proofs.

Lemma randu_wf {R} (draw : nat → R) (pos d0 d1 : nat) :
  wf_array (fst (randu draw pos d0 d1)).
Proof.
  split; simpl.
  - by rewrite length_map, length_seq.
  - apply Forall_forall. intros r Hr.
    apply list_elem_of_fmap in Hr as (i & -> & _).
    by rewrite length_map, length_seq.
Qed.

Lemma amap_wf {R} `{Num R} (f : R → R) (a : AFArray R) :
  wf_array a → wf_array (amap f a).
Proof.
  intros [Hl Hr]. split; simpl; [by rewrite length_map|].
  apply Forall_forall. intros r Hin.
  apply list_elem_of_fmap in Hin as (r' & -> & Hin). rewrite length_map.
  rewrite Forall_forall in Hr. by apply Hr.
Qed.

Lemma get_amap {R} `{Num R} (f : R → R) (a : AFArray R) (i j : nat) :
  get (amap f a) i j = f <$> get a i j.
Proof.
  unfold get. simpl. rewrite list_lookup_fmap.
  destruct (rows a !! i) as [r|]; simpl; [|done].
  by rewrite list_lookup_fmap.
Qed.

Lemma get_randu {R} (draw : nat → R) (pos d0 d1 i j : nat) (x : R) :
  get (fst (randu draw pos d0 d1)) i j = Some x → ∃ k, x = draw k.
Proof.
  unfold get. simpl. rewrite list_lookup_fmap.
  destruct (seq 0 d0 !! i) as [i'|]; simpl; [|done].
  rewrite list_lookup_fmap.
  destruct (seq 0 d1 !! j) as [j'|]; simpl; [|done].
  intros [= <-]. eauto.
Qed.

Section Initialisation.
Context {R : Type} `{Num R} `{!NumOrder R}.

Lemma scaled_draw_bounds (d r : R) :
  rle (rconst 0%Q) d → rle d (rconst 1%Q) → rle (rconst 0%Q) r →
  rle (rneg (rdiv r (rconst 2%Q))) (rsub (rmul d r) (rdiv r (rconst 2%Q))) ∧
  rle (rsub (rmul d r) (rdiv r (rconst 2%Q))) (rdiv r (rconst 2%Q)).
Proof.
  intros Hd0 Hd1 Hr.
  pose proof (rle_refl_l _ _ Hd0) as H00.
  pose proof (rle_refl_r _ _ Hd1) as H11.
  pose proof (rle_refl_r _ _ Hr) as Hrr.
  assert (rle (rconst 0%Q) (rmul d r)) as Hlo.
  { apply (rle_trans _ (rmul (rconst 0%Q) r)); [by apply rmul_zero|].
    by apply rmul_mono. }
  assert (rle (rmul d r) r) as Hhi.
  { apply (rle_trans _ (rmul (rconst 1%Q) r)); [|by apply rmul_one].
    by apply rmul_mono. }
  split.
  - apply (rle_trans _ (rsub (rconst 0%Q) (rdiv r (rconst 2%Q))));
      [by apply rsub_zero|].
    by apply rsub_mono.
  - apply (rle_trans _ (rsub r (rdiv r (rconst 2%Q)))); [|by apply rsub_half].
    by apply rsub_mono.
Qed.

(** C9, as amended: for at least two layer sizes and a positive
    initialisation range (0.05 when none is given), construction returns a
    network with [L] empty signal placeholders and [L - 1] weight matrices,
    [Weight[i]] of shape [(layerSize[i] + 1, layerSize[i+1])], every
    weight within [[-(range/2), range/2]], provided the generator's draws
    lie in [[0, 1]]. The bounds are those of the scalar arithmetic the code
    computes with, ordered as class [NumOrder] says. *)
Theorem constructor_invariant (draw : nat → R) (pos : nat)
    (layers : list nat) (range : option R) :
  2 ≤ length layers →
  (∀ k, rle (rconst 0%Q) (draw k) ∧ rle (draw k) (rconst 1%Q)) →
  (∀ r, range = Some r → rfalsy r = false) →
  rle (rconst 0%Q) (default (rconst (5 # 100)%Q) range) →
  ∃ net pos',
    constructor draw pos layers range = Ok (net, pos') ∧
    numLayers net = length layers ∧
    signal net = replicate (length layers) emptyArray ∧
    length (weights net) = length layers - 1 ∧
    ∀ i a b, layers !! i = Some a → layers !! S i = Some b →
      ∃ w, weights net !! i = Some w ∧
           dim0 w = a + 1 ∧ dim1 w = b ∧ wf_array w ∧
           ∀ r c x, get w r c = Some x →
             rle (rneg (rdiv (default (rconst (5 # 100)%Q) range)
                          (rconst 2%Q))) x ∧
             rle x (rdiv (default (rconst (5 # 100)%Q) range) (rconst 2%Q)).
Proof.
  intros HL Hdraw Hfalsy Hrange.
  assert (rangeOrDefault range = default (rconst (5 # 100)%Q) range) as Er.
  { destruct range as [r|]; simpl; [|done]. by rewrite (Hfalsy r). }
  destruct (constructor_spec draw pos layers range)
    as (net & pos' & Hrun & Hnl & Hsig & Hwl & Hws).
  exists net, pos'. split; [done|].
  split; [done|]. split; [done|]. split; [lia|].
  intros i a b Ha Hb.
  assert (S i < length layers) as Hi by (by eapply lookup_lt_Some).
  destruct (Hws i a b) as (w & Hw & p & ->); try done; [lia|].
  rewrite Er in Hw. eexists. split; [exact Hw|].
  split; [done|]. split; [done|]. split.
  { unfold subS, mulS. do 2 apply amap_wf. apply randu_wf. }
  intros r c x. unfold subS, mulS. rewrite !get_amap.
  destruct (get (fst (randu draw p (a + 1) b)) r c) as [d|] eqn:Ed; [|done].
  simpl. intros [= <-].
  apply get_randu in Ed as [k ->].
  destruct (Hdraw k) as [Hd0 Hd1]. by apply scaled_draw_bounds.
Qed.
End Initialisation.

Lemma ex_net_shape : net_shape ex_layers ex_net.
Proof.
  do 3 (split; [reflexivity|]).
  intros i a b w Ha Hb Hw.
  destruct i as [|[|i]]; simpl in *; simplify_eq; done.
Qed.

Lemma ex_layers_positive : Forall (λ n, 1 ≤ n) ex_layers.
Proof. repeat constructor. Qed.

Lemma forwardPropagate_layers_witness :
  ∃ s', forwardPropagate ex_input ex_net = (Ok tt, s') ∧
        weights s' = weights ex_net ∧
        signal s' !! 0 = Some ex_input ∧
        (∀ i, i < length ex_layers - 1 → layer_chain s' i) ∧
        ∃ out, signal s' !! (length ex_layers - 1) = Some out ∧
               feedForward (weights ex_net) ex_input = Ok out.
Proof.
  apply (forwardPropagate_layers ex_layers ex_input ex_net).
  - exact ex_net_shape.
  - reflexivity.
Defined.

Lemma backPropagate_updates_witness :
  let s := snd (forwardPropagate ex_input ex_net) in
  ∃ s' out err0,
    backPropagate ex_target (1 # 2)%Q s = (Ok tt, s') ∧
    signal s' = signal s ∧
    length (weights s') = length (weights s) ∧
    signal s !! (length ex_layers - 1) = Some out ∧
    sub out ex_target = Ok err0 ∧
    ∀ i, i < length ex_layers - 1 →
      weight_updated s s' (length ex_layers - 1) err0 (1 # 2)%Q
        (dim0 ex_target) i.
Proof.
  apply (backPropagate_updates ex_layers ex_input ex_target (1 # 2)%Q ex_net).
  - exact ex_net_shape.
  - exact ex_layers_positive.
  - reflexivity.
  - vm_compute. reflexivity.
  - reflexivity.
  - reflexivity.
Defined.

Lemma wf_ex_input : wf_array ex_input.
Proof. split; [reflexivity|repeat constructor]. Qed.

Lemma wf_ex_target : wf_array ex_target.
Proof. split; [reflexivity|repeat constructor]. Qed.

Lemma addBias_spec_witness :
  ∃ b, addBias ex_input ex_net = (Ok b, ex_net) ∧
       dim0 b = dim0 ex_input ∧ dim1 b = dim1 ex_input + 1 ∧ wf_array b ∧
       (∀ i, i < dim0 ex_input → get b i 0 = Some (rconst 1%Q)) ∧
       (∀ i j, get b i (S j) = get ex_input i j).
Proof.
  apply (addBias_spec ex_input ex_net). exact wf_ex_input.
Defined.

Lemma calculateError_spec_witness :
  _calculateError ex_target ex_target ex_net
  = (Ok (spec_error ex_target ex_target), ex_net).
Proof.
  apply (calculateError_spec ex_target ex_target ex_net);
    [exact wf_ex_target | exact wf_ex_target | reflexivity | reflexivity].
Defined.

Lemma ex_draw_unit (k : nat) : (0 <= ex_draw k <= 1)%Q.
Proof. unfold ex_draw. by destruct (Nat.even k). Qed.

Lemma constructor_invariant_witness :
  ∃ net pos',
    constructor ex_draw 0 ex_layers (Some (1 # 100)%Q) = Ok (net, pos') ∧
    numLayers net = length ex_layers ∧
    signal net = replicate (length ex_layers) emptyArray ∧
    length (weights net) = length ex_layers - 1 ∧
    ∀ i a b, ex_layers !! i = Some a → ex_layers !! S i = Some b →
      ∃ w, weights net !! i = Some w ∧
           dim0 w = a + 1 ∧ dim1 w = b ∧ wf_array w ∧
           ∀ r c x, get w r c = Some x →
             (- ((1 # 100) / 2) <= x)%Q ∧ (x <= (1 # 100) / 2)%Q.
Proof.
  pose proof (constructor_invariant ex_draw 0 ex_layers (Some (1 # 100)%Q))
    as Hinv.
  simpl in Hinv. apply Hinv.
  - lia.
  - exact ex_draw_unit.
  - intros r [= <-]. reflexivity.
  - discriminate.
Defined.

(** C9, counterexample: with the range [-1] the first weight is [-1/2],
    outside the empty interval from [1/2] to [-1/2]; with the range [0] the
    default 0.05 is used and the first weight is [1/40], outside the
    interval from [0] to [0]. *)
Lemma constructor_range_outside :
  (∃ net pos' w x,
     constructor ex_draw 0 [1; 1] (Some (-1)%Q) = Ok (net, pos') ∧
     weights net !! 0 = Some w ∧ get w 0 0 = Some x ∧
     (x == - (1 # 2))%Q ∧
     ¬ (- (-1 / 2) <= x <= -1 / 2)%Q) ∧
  (∃ net pos' w x,
     constructor ex_draw 0 [1; 1] (Some 0%Q) = Ok (net, pos') ∧
     weights net !! 0 = Some w ∧ get w 0 0 = Some x ∧
     (x == 1 # 40)%Q ∧
     ¬ (- (0 / 2) <= x <= 0 / 2)%Q).
Proof.
  split; eexists _, _, _, _.
  - split; [reflexivity|]. split; [reflexivity|]. split; [reflexivity|].
    split; [reflexivity|]. intros [Hlo _]. by apply Hlo.
  - split; [reflexivity|]. split; [reflexivity|]. split; [reflexivity|].
    split; [reflexivity|]. intros [_ Hhi]. by apply Hhi.
Qed.

Lemma constructor_short_layers_witness :
  constructor ex_draw 0 [5] (None : option Q)
  = Ok (mkANN 1 (replicate 1 emptyArray) [], 0).
Proof.
  apply (constructor_short_layers ex_draw 0 [5] None). simpl. lia.
Defined.

(** C6, counterexample: a single layer size, and none, both give a
    network object. *)
Lemma constructor_single_layer_succeeds :
  constructor ex_draw 0 [5] (None : option Q)
  = Ok (mkANN 1 [emptyArray] [], 0) ∧
  constructor ex_draw 0 [] (None : option Q) = Ok (mkANN 0 [] [], 0).
Proof. split; reflexivity. Qed.

Lemma training_overlaps_validation_witness :
  0 < batchSize (ex_options 3) ∧ safe (dim0 ex_input10) ∧
  3 < 10 ∧ 10 `mod` 3 ≠ 0 ∧
  seq_range (validationSeq 10 3) 10 = Some (10 - 3, 3) ∧
  ∃ j row,
    j ∈ trainIndices 10 3 ∧
    at_rows (batchSeq 3 j) ex_input10
    = Ok (mkArr 3 2 (take 3 (drop (j * 3) (rows ex_input10)))) ∧
    at_rows (validationSeq 10 3) ex_input10
    = Ok (mkArr 3 2 (take 3 (drop (10 - 3) (rows ex_input10)))) ∧
    j * 3 ≤ row < j * 3 + 3 ∧
    10 - 3 ≤ row < 10.
Proof.
  assert (0 < batchSize (ex_options 3)) as Hb by (simpl; lia).
  assert (safe (dim0 ex_input10)) as Hs by reflexivity.
  assert (seq_range (validationSeq 10 3) 10 = Some (10 - 3, 3)) as Hv
    by (vm_compute; reflexivity).
  split; [exact Hb|]. split; [exact Hs|]. split; [lia|].
  split; [discriminate|]. split; [exact Hv|].
  destruct (training_overlaps_validation (ex_options 3) ex_input10
              ex_target10 Hb Hs) as (_ & _ & _ & _ & Hoverlap & _).
  apply Hoverlap; [simpl; lia|discriminate|exact Hv].
Defined.

(** C8, counterexample: four samples in batches of three. [numBatches] is
    the double 1.3333333333333333 and not the quotient [4/3]; the
    validation range starts at 0.9999999999999998 and not at row
    [4 - 3 = 1], so it is not a range of whole rows and the rows it selects
    are the backend's choice. *)
Lemma fractional_validation_start :
  3 < 4 ∧ 4 `mod` 3 ≠ 0 ∧
  (∃ q, numBatchesOf 4 3 = Fin q ∧ ¬ (q == 4 # 3)%Q) ∧
  (∃ sb, seq_begin (validationSeq 4 3) = Fin sb ∧
         (sb == 4503599627370495 # 4503599627370496)%Q ∧
         ¬ (sb == Qnat (4 - 3))%Q) ∧
  seq_range (validationSeq 4 3) 4 = None ∧
  seq_range (validationSeq 4 3) 4 ≠ Some (4 - 3, 3) ∧
  ∀ P : SeqPolicy Q,
    @at_rows Q P (validationSeq 4 3) ex_input4
    = @seq_invalid Q P (validationSeq 4 3) ex_input4.
Proof.
  assert (seq_range (validationSeq 4 3) 4 = None) as Hv
    by (vm_compute; reflexivity).
  split; [lia|]. split; [discriminate|]. split.
  { eexists. split; [reflexivity|]. intros E. vm_compute in E. discriminate. }
  split.
  { eexists. split; [reflexivity|]. split; [vm_compute; reflexivity|].
    intros E. vm_compute in E. discriminate. }
  split; [exact Hv|]. split; [rewrite Hv; discriminate|].
  intros P. unfold at_rows. change (dim0 ex_input4) with 4. by rewrite Hv.
Qed.

Lemma backwardStep_propagates_witness :
  ∃ s' w' delta e1 e',
    backwardStep (1 # 2)%Q 2 1
      (mkArr 2 2 [[1 # 2; 1 # 4]; [1 # 2; 1 # 2]]%Q)
      (mkArr 2 2 [[-1 # 2; 1 # 4]; [1 # 2; -1 # 2]]%Q) ex_square
    = (Ok (mkArr 2 1 [[1 # 2]; [1 # 4]]%Q, e'), s') ∧
    spec_update (mkArr 2 2 [[1 # 10; 2 # 10]; [3 # 10; 4 # 10]]%Q)
      (mkArr 2 2 [[1 # 2; 1 # 4]; [1 # 2; 1 # 2]]%Q)
      (mkArr 2 2 [[-1 # 2; 1 # 4]; [1 # 2; -1 # 2]]%Q)
      (mkArr 2 1 [[1 # 2]; [1 # 4]]%Q) (1 # 2)%Q 2 = Ok w' ∧
    weights s' !! 1 = Some w' ∧
    spec_delta (mkArr 2 2 [[1 # 2; 1 # 4]; [1 # 2; 1 # 2]]%Q)
      (mkArr 2 2 [[-1 # 2; 1 # 4]; [1 # 2; -1 # 2]]%Q) = Ok delta ∧
    matMulTT delta w' = Ok e1 ∧
    matMul (transpose delta) (transpose w') = Ok e1 ∧
    dim1 e1 = 1 + 1 ∧
    rows e' = map (λ r, take 1 (drop 1 r)) (rows e1) ∧
    dim0 e' = 2 ∧ dim1 e' = 1.
Proof.
  apply (backwardStep_propagates ex_square (1 # 2)%Q 2 1
           (mkArr 2 1 [[1 # 2]; [1 # 4]]%Q)
           (mkArr 2 2 [[1 # 10; 2 # 10]; [3 # 10; 4 # 10]]%Q)
           (mkArr 2 2 [[1 # 2; 1 # 4]; [1 # 2; 1 # 2]]%Q)
           (mkArr 2 2 [[-1 # 2; 1 # 4]; [1 # 2; -1 # 2]]%Q));
    (reflexivity || (simpl; lia)).
Defined.

Lemma validation_rows_never_train_witness :
  trainIndices 100 25 = [0; 1; 2] ∧
  (∀ j, j ∈ trainIndices 100 25 →
     seq_range (batchSeq 25 j) 100 = Some (j * 25, 25) ∧ j * 25 + 25 ≤ 75) ∧
  seq_range (validationSeq 100 25) 100 = Some (75, 25) ∧
  ∃ s1 s2,
    runEpochs ex_input100 ex_target100 (ex_options 25) 2 ex_net = (Ok tt, s1) ∧
    runEpochs (permute_tail ex_input100) (permute_tail ex_target100)
      (ex_options 25) 2 ex_net = (Ok tt, s2) ∧
    weights s1 = weights s2.
Proof.
  apply (validation_rows_never_train ex_layers (ex_options 25)
           ex_input100 ex_target100
           (permute_tail ex_input100) (permute_tail ex_target100) ex_net 2);
    first [exact ex_net_shape | exact ex_layers_positive | reflexivity].
Defined.

Lemma permute_tail_differs :
  rows (permute_tail ex_input100) ≠ rows ex_input100.
Proof. vm_compute. discriminate. Qed.

Lemma degenerate_batch_epoch_witness :
  (trainIndices (dim0 ex_input) 2 = [] ∧
   trainLoopEnds (dim0 ex_input) 2 = true ∧
   weights (snd (epoch ex_input ex_target (ex_options 2) ex_net))
   = weights ex_net ∧
   seq_range (validationSeq (dim0 ex_input) 2) (dim0 ex_input)
   = Some (0, dim0 ex_input) ∧
   at_rows (validationSeq (dim0 ex_input) 2) ex_input = Ok ex_input ∧
   at_rows (validationSeq (dim0 ex_input) 2) ex_target = Ok ex_target ∧
   ∃ e s', epoch ex_input ex_target (ex_options 2) ex_net = (Ok e, s') ∧
           weights s' = weights ex_net) ∧
  (trainIndices (dim0 ex_input) 3 = [] ∧
   weights (snd (epoch ex_input ex_target (ex_options 3) ex_net))
   = weights ex_net ∧
   (∃ sb se, validationSeq (dim0 ex_input) 3 = mkSeq sb se ∧ (sb < 0)%Q) ∧
   seq_range (validationSeq (dim0 ex_input) 3) (dim0 ex_input) = None ∧
   at_rows (validationSeq (dim0 ex_input) 3) ex_input
   = seq_invalid (validationSeq (dim0 ex_input) 3) ex_input).
Proof.
  split.
  - destruct (degenerate_batch_epoch ex_layers (ex_options 2) ex_input
                ex_target ex_net) as (Hidx & Hends & Hw & Hwhole & _);
      [exact ex_net_shape | exact wf_ex_input | exact wf_ex_target
      | simpl; lia | reflexivity | reflexivity | reflexivity | reflexivity
      | simpl; lia |].
    split; [exact Hidx|]. split; [exact Hends|]. split; [exact Hw|].
    exact (Hwhole eq_refl).
  - destruct (degenerate_batch_epoch ex_layers (ex_options 3) ex_input
                ex_target ex_net) as (Hidx & _ & Hw & _ & Hover);
      [exact ex_net_shape | exact wf_ex_input | exact wf_ex_target
      | simpl; lia | reflexivity | reflexivity | reflexivity | reflexivity
      | simpl; lia |].
    split; [exact Hidx|]. split; [exact Hw|].
    apply Hover; [simpl; lia|reflexivity].
Defined.

(** C7, counterexample: two samples and a batch size of three. The
    validation range the code asks for starts at [-1], so it is not the
    rows [0 .. 1] of the input, and what the epoch validates on is the
    backend's answer to a range that begins before the first row; a backend
    that rejects such a range makes the epoch throw. *)
Lemma oversized_batch_validation_range :
  (∃ sb, seq_begin (validationSeq (dim0 ex_input) 3) = Fin sb ∧
         (sb == -1)%Q) ∧
  seq_range (validationSeq (dim0 ex_input) 3) (dim0 ex_input) = None ∧
  seq_range (validationSeq (dim0 ex_input) 3) (dim0 ex_input)
  ≠ Some (0, dim0 ex_input) ∧
  (∀ P : SeqPolicy Q,
     @at_rows Q P (validationSeq (dim0 ex_input) 3) ex_input
     = @seq_invalid Q P (validationSeq (dim0 ex_input) 3) ex_input) ∧
  fst (@epoch Q Q_Num Q_Elementary strictSeq ex_input ex_target (ex_options 3)
         ex_net)
  = Err IndexError.
Proof.
  assert (seq_range (validationSeq (dim0 ex_input) 3) (dim0 ex_input) = None)
    as Hv by (vm_compute; reflexivity).
  split.
  { eexists. split; [reflexivity|]. vm_compute. reflexivity. }
  split; [exact Hv|]. split; [rewrite Hv; discriminate|].
  split; [|vm_compute; reflexivity].
  intros P. unfold at_rows. by rewrite Hv.
Qed.

(** C2, counterexample: in the first iteration on a network of layer sizes
    [1; 1; 2] and a batch of two samples, the error the code hands back
    differs from [matmul(delta, transpose(Weight[1]))] without column 0. *)
Lemma propagated_error_not_second_only :
  ∃ out err sig delta w' e' s' claimed x y,
    fst (getLastSignal ex_square) = Ok out ∧
    sub out ex_square_target = Ok err ∧
    backwardStep (1 # 2)%Q 2 1 out err ex_square = (Ok (sig, e'), s') ∧
    spec_delta out err = Ok delta ∧
    weights s' !! 1 = Some w' ∧
    second_only_propagate delta w' sig = Ok claimed ∧
    get e' 0 0 = Some x ∧ get claimed 0 0 = Some y ∧
    ¬ (x == y)%Q.
Proof.
  do 10 eexists.
  split; [vm_compute; reflexivity|].
  split; [vm_compute; reflexivity|].
  split; [vm_compute; reflexivity|].
  split; [vm_compute; reflexivity|].
  split; [vm_compute; reflexivity|].
  split; [vm_compute; reflexivity|].
  split; [vm_compute; reflexivity|].
  split; [vm_compute; reflexivity|].
  vm_compute. discriminate.
Qed.

Lemma second_only_propagate_shape_error :
  ∃ s out err sig delta w' e' s',
    forwardPropagate ex_input ex_net = (Ok tt, s) ∧
    fst (getLastSignal s) = Ok out ∧
    sub out ex_target = Ok err ∧
    backwardStep (1 # 2)%Q 2 1 out err s = (Ok (sig, e'), s') ∧
    spec_delta out err = Ok delta ∧
    weights s' !! 1 = Some w' ∧
    second_only_propagate delta w' sig = Err ShapeError.
Proof.
  do 8 eexists.
  split; [vm_compute; reflexivity|].
  split; [vm_compute; reflexivity|].
  split; [vm_compute; reflexivity|].
  split; [vm_compute; reflexivity|].
  split; [vm_compute; reflexivity|].
  split; [vm_compute; reflexivity|].
  vm_compute. reflexivity.
Qed.

Lemma ex_net_seen_shape : net_shape ex_layers ex_net_seen.
Proof.
  do 3 (split; [reflexivity|]).
  intros i a b w Ha Hb Hw.
  destruct i as [|[|i]]; simpl in *; simplify_eq; done.
Qed.

Lemma predict_output_witness :
  ∃ out s' n,
    predict ex_input ex_net = (Ok out, s') ∧
    feedForward (weights ex_net) ex_input = Ok out ∧
    signal s' !! (length ex_layers - 1) = Some out ∧
    ex_layers !! (length ex_layers - 1) = Some n ∧
    dim0 out = dim0 ex_input ∧ dim1 out = n ∧
    weights s' = weights ex_net ∧ numLayers s' = numLayers ex_net.
Proof.
  apply (predict_output ex_layers ex_input ex_net);
    [exact ex_net_shape | reflexivity].
Defined.

Lemma forwardPropagate_idempotent_witness :
  let s' := snd (forwardPropagate ex_input ex_net) in
  forwardPropagate ex_input s' = (Ok tt, s') ∧
  fst (predict ex_input s') = fst (predict ex_input ex_net).
Proof.
  apply (forwardPropagate_idempotent ex_layers ex_input ex_net);
    [exact ex_net_shape | reflexivity | vm_compute; reflexivity].
Defined.

Lemma predict_ignores_signals_witness :
  predict ex_input ex_net = predict ex_input ex_net_seen.
Proof.
  apply (predict_ignores_signals ex_layers ex_input ex_net ex_net_seen);
    [exact ex_net_shape | exact ex_net_seen_shape | reflexivity | reflexivity].
Defined.

Lemma forwardPropagate_input_mismatch_witness :
  forwardPropagate ex_wide_input ex_net
  = (Err ShapeError,
     mkANN (numLayers ex_net) (<[0:=ex_wide_input]> (signal ex_net))
       (weights ex_net)) ∧
  fst (predict ex_wide_input ex_net) = Err ShapeError.
Proof.
  apply (forwardPropagate_input_mismatch ex_layers ex_wide_input ex_net 2);
    [exact ex_net_shape | simpl; lia | reflexivity | simpl; lia].
Defined.

Lemma backPropagate_target_mismatch_witness :
  backPropagate ex_input (1 # 2)%Q ex_net_seen = (Err ShapeError, ex_net_seen).
Proof.
  apply (backPropagate_target_mismatch ex_input (1 # 2)%Q ex_net_seen 2
           (mkArr 1 1 [[1 # 4]]%Q));
    [reflexivity | reflexivity | left; simpl; lia].
Defined.

Lemma constructor_then_predict_witness :
  ∃ net pos' out s' n,
    constructor ex_draw 0 ex_layers None = Ok (net, pos') ∧
    net_shape ex_layers net ∧
    predict ex_input net = (Ok out, s') ∧
    ex_layers !! (length ex_layers - 1) = Some n ∧
    dim0 out = dim0 ex_input ∧ dim1 out = n ∧
    weights s' = weights net.
Proof.
  apply (constructor_then_predict ex_draw 0 ex_layers None ex_input).
  reflexivity.
Defined.

Lemma train_completes_witness :
  ∃ e s', train ex_input100 ex_target100 (ex_options 25) ex_net = (Ok e, s') ∧
          net_shape ex_layers s'.
Proof.
  apply (train_completes ex_layers (ex_options 25) ex_input100 ex_target100
           ex_net);
    first [exact ex_net_shape | exact ex_layers_positive | reflexivity
          | (simpl; lia)].
Defined.

Lemma train_returns_witness :
  train ex_input ex_target (ex_options 1) ex_net = (Ok 0%Q, ex_net) ↔
  ∃ k sp, k < maxEpochs (ex_options 1) ∧
          epochs_unconverged ex_input ex_target (ex_options 1) k ex_net sp ∧
          epoch ex_input ex_target (ex_options 1) sp = (Ok 0%Q, ex_net) ∧
          (rltb 0%Q (maxError (ex_options 1)) = true
           ∨ S k = maxEpochs (ex_options 1)).
Proof.
  apply (train_returns ex_input ex_target (ex_options 1) 0%Q ex_net ex_net).
  simpl. lia.
Defined.

Lemma epoch_rows_partition_witness :
  trainLoopEnds 12 3 = true ∧
  (∀ j, j ∈ trainIndices 12 3 →
     seq_range (batchSeq 3 j) 12 = Some (j * 3, 3)) ∧
  seq_range (validationSeq 12 3) 12 = Some (12 - 3, 3) ∧
  (∀ r, r < 12 →
     (∃ j, j ∈ trainIndices 12 3 ∧ j * 3 ≤ r < j * 3 + 3) ∨ 12 - 3 ≤ r) ∧
  (∀ j r, j ∈ trainIndices 12 3 → j * 3 ≤ r < j * 3 + 3 → r < 12 - 3).
Proof.
  destruct (epoch_rows_partition 12 3) as (Hends & Hbatch & Hdiv);
    [lia | lia | reflexivity |].
  split; [exact Hends|]. split; [exact Hbatch|].
  exact (Hdiv eq_refl).
Defined.

Lemma addBias_drop_bias_column_witness :
  ∃ b, addBias ex_input ex_net = (Ok b, ex_net) ∧
       at_cols (mkSeq 1 (Qnat (dim1 ex_input))) b = Ok ex_input.
Proof.
  apply (addBias_drop_bias_column ex_input ex_net);
    [exact wf_ex_input | simpl; lia].
Defined.

Lemma train_oversized_batch_keeps_weights_witness :
  weights (snd (train ex_input ex_target (ex_options 5) ex_net))
  = weights ex_net ∧
  numLayers (snd (train ex_input ex_target (ex_options 5) ex_net))
  = numLayers ex_net.
Proof.
  apply (train_oversized_batch_keeps_weights ex_input ex_target
           (ex_options 5) ex_net); simpl; lia.
Defined.

Lemma train_zero_batch_never_returns_witness :
  numBatchesOf (dim0 ex_input) (batchSize (ex_options 0)) = Infinity ∧
  ∀ e s', train ex_input ex_target (ex_options 0) ex_net ≠ (Ok e, s').
Proof.
  apply (train_zero_batch_never_returns ex_input ex_target (ex_options 0)
           ex_net).
  - simpl. lia.
  - reflexivity.
  - simpl. lia.
Defined.
